(** * Price oracle: median reduction, provider runners, ticks and publication

    A shallow embedding of [oracle/utils/math.go] (ComputeMedian) and of the
    oracle loop ([Oracle.Start], [Oracle.tick], [Oracle.fetchPricesFn],
    [Oracle.SetPrices], [Oracle.SetLastSyncTime], [Oracle.GetPrices]).

    Go maps are finite maps ([gmap]); the order in which [range] visits a
    Go map is unspecified, so every loop over a map is modelled as a fold
    over an arbitrary permutation of the map's entries. *)

From stdpp Require Import gmap strings list fin_maps sorting.
From Stdlib Require Import ZArith Ascii.

Local Open Scope Z_scope.

(** ** Data model *)

(** [sdk.Dec]: a fixed-point decimal, an arbitrary-precision integer scaled
    by 10^18.  Comparison ([LT]) is comparison of the scaled integers. *)
Abbreviation Dec := Z.

(** Modelled from the spec: [types.TickerPrice] is declared outside the
    sources at hand.  ComputeMedian only reads its [Price] field; the
    second field stands for the rest of the quote (the source comment speaks
    of weighted prices), and lets two quotes with equal prices differ. *)
Record TickerPrice : Type := mkTickerPrice { Price : Dec; Volume : Dec }.

(** [types.AggregatedProviderPrices]: provider -> asset -> TickerPrice. *)
Abbreviation ProviderPrices := (gmap string TickerPrice).
Abbreviation AggregatedProviderPrices := (gmap string (gmap string TickerPrice)).
Abbreviation PriceMap := (gmap string Dec).

Module Sort.

(** The comparator handed to sort.SliceStable:
    [prices[i].Price.LT(prices[j].Price)]. *)
Definition less (a b : TickerPrice) : bool := Price a <? Price b.

(** One pass of the inner loop of Go's insertion sort: the new element
    moves left while it is strictly less than its left neighbour.  The
    sorted prefix is kept reversed, so the left neighbour is the head. *)
Fixpoint moveLeft (x : TickerPrice) (revPrefix : list TickerPrice)
  : list TickerPrice :=
  match revPrefix with
  | [] => [x]
  | y :: ys => if less x y then y :: moveLeft x ys else x :: y :: ys
  end.

Definition insertionSortRev (data : list TickerPrice) : list TickerPrice :=
  foldl (fun revPrefix x => moveLeft x revPrefix) [] data.

(** [sort.SliceStable(prices, less)].  Go sorts blocks of 20 elements by
    this insertion sort and merges the blocks with a stable merge; a
    stable sort has one possible result, the one computed here. *)
Definition SliceStable (data : list TickerPrice) : list TickerPrice :=
  reverse (insertionSortRev data).

(** Ascending and descending order of quotes by price. *)
Definition ascending : list TickerPrice -> Prop :=
  StronglySorted (fun a b => Price a <= Price b).
Definition descending : list TickerPrice -> Prop :=
  StronglySorted (fun a b => Price b <= Price a).

End Sort.

Module Median.

(** Body of the first loop: initialise the asset's slice if it does not
    exist, then append. *)
Definition appendPrice (pricesByAsset : gmap string (list TickerPrice))
    (entry : string * TickerPrice) : gmap string (list TickerPrice) :=
  let '(asset, price) := entry in
  let pricesByAsset :=
    match pricesByAsset !! asset with
    | Some _ => pricesByAsset
    | None => <[asset := []]> pricesByAsset
    end in
  <[asset := default [] (pricesByAsset !! asset) ++ [price]]> pricesByAsset.

(** The first pair of nested loops, along a given visiting order: one
    list of (asset, price) entries per provider. *)
Definition collect (visits : list (list (string * TickerPrice)))
  : gmap string (list TickerPrice) :=
  foldl (fun acc providerPrices => foldl appendPrice acc providerPrices)
        ∅ visits.

(** [prices[len(prices)/2].Price] after the in-place stable sort; [None]
    is the index-out-of-range panic. *)
Definition medianOf (prices : list TickerPrice) : option Dec :=
  let prices := Sort.SliceStable prices in
  Price <$> prices !! (length prices / 2)%nat.

(** Body of the second loop; a panic aborts the whole function. *)
Definition medianStep (medianPrices : option PriceMap)
    (entry : string * list TickerPrice) : option PriceMap :=
  match medianPrices with
  | None => None
  | Some medianPrices =>
      match medianOf entry.2 with
      | None => None
      | Some medianPrice => Some (<[entry.1 := medianPrice]> medianPrices)
      end
  end.

Definition reduce (entries : list (string * list TickerPrice))
  : option PriceMap :=
  foldl medianStep (Some ∅) entries.

(** A visiting order of the outer and inner maps of the snapshot. *)
Definition rangesProviders (providers : AggregatedProviderPrices)
    (visits : list (list (string * TickerPrice))) : Prop :=
  exists ps : list (string * ProviderPrices),
    ps ≡ₚ map_to_list providers /\
    Forall2 (fun p visit => visit ≡ₚ map_to_list p.2) ps visits.

(** The possible executions of ComputeMedian: one for each order in which
    the three [range] loops may visit their maps. *)
Inductive ComputeMedianRun (providers : AggregatedProviderPrices)
  : option PriceMap -> Prop :=
| RunOf visits entries :
    rangesProviders providers visits ->
    entries ≡ₚ map_to_list (collect visits) ->
    ComputeMedianRun providers (reduce entries).

(** ComputeMedian along the visiting order given by [map_to_list]: one of
    the executions above, and an executable function. *)
Definition ComputeMedian (providers : AggregatedProviderPrices)
  : option PriceMap :=
  reduce (map_to_list
            (collect ((fun p => map_to_list p.2) <$> map_to_list providers))).

(** The prices reported for an asset, one per provider reporting it. *)
Definition pricesFor (asset : string) (providers : AggregatedProviderPrices)
  : list TickerPrice :=
  omap (fun p : string * ProviderPrices => p.2 !! asset)
       (map_to_list providers).

(** The prices met for one asset along a flat visiting order. *)
Definition pricesIn (asset : string) (flat : list (string * TickerPrice))
  : list TickerPrice :=
  omap (fun e : string * TickerPrice =>
          if decide (e.1 = asset) then Some e.2 else None) flat.

End Median.

Definition tp (p : Z) : TickerPrice := mkTickerPrice p 0.

Definition scenarioC : AggregatedProviderPrices :=
  {[ "P1" := {[ "ETH/USD" := tp 1800 ]};
     "P2" := {[ "ETH/USD" := tp 2100 ]};
     "P3" := {[ "ETH/USD" := tp 2000 ]};
     "P4" := {[ "ETH/USD" := tp 1900 ]} ]}.

(** ** The oracle *)

Module Oracle.

(** Go maps and the price aggregator are reference objects: the store
    holds them by address, and a [map[string]sdk.Dec] value is nil or
    the address of a map object. *)
Abbreviation loc := positive.
Abbreviation mapref := (option loc).

(** [time.Time] as an instant; 0 is the zero time. *)
Abbreviation Time := Z.

(** An error value, by its message; [None] is the nil error. *)
Abbreviation error := string.

(** The result of a call that may panic. *)
Inductive exec (A : Type) : Type :=
| Ret (a : A)
| Panic (r : string).
Arguments Ret {A} a.
Arguments Panic {A} r.

(** [types.Provider], as far as the runner body uses it: the call
    [provider.Name()], which panics on a nil provider.  The provider's
    [GetPrices] runs in its own goroutine and shows up as events. *)
Record Provider : Type := mkProvider { Name : exec string }.

(** The oracle ([Oracle] struct) together with the store of the objects
    it refers to: map objects and the aggregators of the ticks so far. *)
Record State : Type := mkState {
  maps : gmap loc PriceMap;
  aggregators : gmap loc AggregatedProviderPrices;
  providers : list Provider;
  closed : bool;
  status : bool;
  lastPriceSync : Time;
  prices : mapref
}.

Definition withMaps (f : gmap loc PriceMap -> gmap loc PriceMap)
    (o : State) : State :=
  mkState (f (maps o)) (aggregators o) (providers o) (closed o) (status o)
          (lastPriceSync o) (prices o).

Definition withAggregators
    (f : gmap loc AggregatedProviderPrices ->
         gmap loc AggregatedProviderPrices) (o : State) : State :=
  mkState (maps o) (f (aggregators o)) (providers o) (closed o) (status o)
          (lastPriceSync o) (prices o).

Definition withClosed (b : bool) (o : State) : State :=
  mkState (maps o) (aggregators o) (providers o) b (status o)
          (lastPriceSync o) (prices o).

Definition withStatus (b : bool) (o : State) : State :=
  mkState (maps o) (aggregators o) (providers o) (closed o) b
          (lastPriceSync o) (prices o).

(** [make(map[string]sdk.Dec)] followed by filling it in. *)
Definition makeMap (content : PriceMap) (o : State) : State * loc :=
  let l := fresh (dom (maps o)) in
  (withMaps (insert l content) o, l).

(** Reading through a map value; a nil map reads as empty. *)
Definition deref (o : State) (r : mapref) : PriceMap :=
  match r with
  | Some l => default ∅ (maps o !! l)
  | None => ∅
  end.

(** [maps.Copy(dst, src)]: [for k, v := range src { dst[k] = v }]. *)
Definition mapsCopy (dst src : PriceMap) : PriceMap :=
  map_fold (fun k v dst => <[k := v]> dst) dst src.

Definition IsRunning (o : State) : bool := status o.

(** [SetLastSyncTime]: one critical section of [o.mtx]. *)
Definition SetLastSyncTime (t : Time) (o : State) : State :=
  mkState (maps o) (aggregators o) (providers o) (closed o) (status o)
          t (prices o).

Definition GetLastSyncTime (o : State) : Time := lastPriceSync o.

(** [SetPrices]: one critical section of [o.mtx]; stores the reference. *)
Definition SetPrices (r : mapref) (o : State) : State :=
  mkState (maps o) (aggregators o) (providers o) (closed o) (status o)
          (lastPriceSync o) r.

(** [New]: an empty price map, the zero sync time, not running.  Its
    panics on a nil logger or a nil provider slice are not modelled: a
    state is an oracle that was constructed. *)
Definition New (providers : list Provider) : State :=
  let '(o, l) := makeMap ∅ (mkState ∅ ∅ providers false false 0 None) in
  SetPrices (Some l) o.

(** [GetPrices]: a new map of the published entries. *)
Definition GetPrices (o : State) : State * mapref :=
  let '(o', p) := makeMap (mapsCopy ∅ (deref o (prices o))) o in
  (o', Some p).

(** What a reader holding the read side of [o.mtx] sees. *)
Definition view (o : State) : PriceMap * Time :=
  (deref o (prices o), lastPriceSync o).

(** What a caller of [GetPrices] and then [GetLastSyncTime] reads. *)
Definition reads (o : State) : PriceMap * Time :=
  let '(o', r) := GetPrices o in
  (deref o' r, GetLastSyncTime o').

(** A caller assigning to or deleting from a map it holds: the object
    at that address takes a new content. *)
Definition mutate (r : mapref) (content : PriceMap) (o : State) : State :=
  match r with
  | Some l => withMaps (insert l content) o
  | None => o
  end.

(** [Stop]: closes the closer and waits for it; [closed] is the state of
    [o.closer], whose [Done] channel enables the loop's second case. *)
Definition Stop (o : State) : State := withClosed true o.

(** *** The per-provider runner *)

(** The case taken by the runner's [select]. *)
Inductive Select : Type :=
| CaseDone
| CaseErr (err : error)
| CaseTimeout.

(** The body of the closure returned by [fetchPricesFn], up to its
    [return nil]; [sel] is the case its select takes. *)
Definition runnerBody (provider : Provider) (sel : Select) : exec unit :=
  match Name provider with
  | Panic r => Panic r
  | Ret _ =>
      match sel with
      | CaseDone => Ret tt
      | CaseErr _ => Ret tt
      | CaseTimeout => Ret tt
      end
  end.

(** The closure with its deferred [recover]: the named result [err] is
    nil unless the body panicked. *)
Definition fetchPricesFn (provider : Provider) (sel : Select)
  : option error :=
  match runnerBody provider sel with
  | Ret _ => None
  | Panic r => Some ("panic in fetchPricesFn " +:+ r)
  end.

(** *** One tick *)

(** What the goroutines of one tick do, in the order in which it
    happens: a fetch goroutine stores its prices in the aggregator, or
    a runner returns to the group. *)
Inductive Event : Type :=
| FetchStores (name : string) (quotes : ProviderPrices)
| RunnerReturns (provider : Provider) (sel : Select).

(** The outcome of [provider.GetPrices()] in the fetch goroutine. *)
Inductive Fetch : Type :=
| Fetched (quotes : ProviderPrices)
| FetchFailed (err : error)
| FetchPanicked (r : string).

(** The goroutine started by the runner: what it stores in the aggregator,
    and the message it leaves on [doneCh] or [errCh], named by the select
    case that the message enables.  Its own [recover] turns a panic into
    an error message. *)
Definition fetchGoroutine (name : string) (f : Fetch) : list Event * Select :=
  match f with
  | Fetched quotes => ([FetchStores name quotes], CaseDone)
  | FetchFailed err => ([], CaseErr err)
  | FetchPanicked r => ([], CaseErr ("panic when fetching prices " +:+ r))
  end.

(** The calls of the tick body that precede publication. *)
Inductive Stage : Type := AtFanOut | AtWait | AtSnapshot | AtReduce.

Definition sameStage (s1 s2 : Stage) : bool :=
  match s1, s2 with
  | AtFanOut, AtFanOut | AtWait, AtWait
  | AtSnapshot, AtSnapshot | AtReduce, AtReduce => true
  | _, _ => false
  end.

(** The environment of one tick: the events up to the moment the tick
    reads the aggregator, a panic raised by one of the calls of the tick
    body if any, and the clock. *)
Record TickEnv : Type := mkTickEnv {
  events : list Event;
  panicAt : option (Stage * string);
  now : Time
}.

Definition reach (env : TickEnv) (stage : Stage) : exec unit :=
  match panicAt env with
  | Some (s, r) => if sameStage s stage then Panic r else Ret tt
  | None => Ret tt
  end.

(** [types.NewPriceAggregator()]. *)
Definition NewPriceAggregator (o : State) : State * loc :=
  let a := fresh (dom (aggregators o)) in
  (withAggregators (insert a ∅) o, a).

(** Modelled from the spec: [PriceAggregator.SetPrices] is declared
    outside the sources at hand; it stores the quotes under the
    provider's slot, replacing any prior entry. *)
Definition AggSetPrices (a : loc) (name : string) (quotes : ProviderPrices)
    (o : State) : State :=
  withAggregators (alter (insert name quotes) a) o.

(** Modelled from the spec: [PriceAggregator.GetProviderPrices], the
    accumulated per-provider map. *)
Definition GetProviderPrices (a : loc) (o : State)
  : AggregatedProviderPrices :=
  default ∅ (aggregators o !! a).

Definition happen (a : loc) (o : State) (ev : Event) : State :=
  match ev with
  | FetchStores name quotes => AggSetPrices a name quotes o
  | RunnerReturns _ _ => o
  end.

Definition returned (ev : Event) : option Provider :=
  match ev with
  | FetchStores _ _ => None
  | RunnerReturns provider _ => Some provider
  end.

Definition runnerError (ev : Event) : option error :=
  match ev with
  | FetchStores _ _ => None
  | RunnerReturns provider sel => fetchPricesFn provider sel
  end.

(** [g.Wait()]: the first non-nil error returned by a runner. *)
Definition Wait (evs : list Event) : option error :=
  head (omap runnerError evs).

(** The two critical sections of a publication, in program order. *)
Definition publication (medianPrices : mapref) (t : Time)
  : list (State -> State) :=
  [SetPrices medianPrices; SetLastSyncTime t].

Definition runSections (sections : list (State -> State)) (o : State)
  : State :=
  foldl (fun o section => section o) o sections.

(** The tick body after the aggregator has been created. *)
Definition tickBody (env : TickEnv) (priceAgg : loc) (o : State)
  : State * exec unit :=
  match reach env AtFanOut with
  | Panic r => (o, Panic r)
  | Ret _ =>
      let o := foldl (happen priceAgg) o (events env) in
      match reach env AtWait with
      | Panic r => (o, Panic r)
      | Ret _ =>
          match Wait (events env) with
          | Some err => (o, Ret tt)
          | None =>
              match reach env AtSnapshot with
              | Panic r => (o, Panic r)
              | Ret _ =>
                  let snapshot := GetProviderPrices priceAgg o in
                  match reach env AtReduce, Median.ComputeMedian snapshot with
                  | Panic r, _ => (o, Panic r)
                  | Ret _, None => (o, Panic "index out of range")
                  | Ret _, Some medianPrices =>
                      let '(o, m) := makeMap medianPrices o in
                      (runSections (publication (Some m) (now env)) o, Ret tt)
                  end
              end
          end
      end
  end.

(** [tick]: the deferred [recover] logs a panic and returns. *)
Definition tick (env : TickEnv) (o : State) : State :=
  let '(o, priceAgg) := NewPriceAggregator o in
  fst (tickBody env priceAgg o).

(** The schedule launches one runner per configured provider. *)
Definition wellScheduled (o : State) (env : TickEnv) : Prop :=
  omap returned (events env) ≡ₚ providers o.

(** *** The main loop *)

(** The case taken by one iteration of the loop's [select]. *)
Inductive LoopEvent : Type :=
| CtxDone (err : error)
| CloserDone
| TickerC (env : TickEnv).

(** The loop of [Start]; [None] means that it is still waiting. *)
Fixpoint loop (evs : list LoopEvent) (o : State)
  : State * option (option error) :=
  match evs with
  | [] => (o, None)
  | CtxDone err :: _ => (Stop o, Some (Some err))
  | CloserDone :: _ => (o, Some None)
  | TickerC env :: evs => loop evs (tick env o)
  end.

(** [Start]: the status is set on entry and cleared on return. *)
Definition Start (evs : list LoopEvent) (o : State)
  : State * option (option error) :=
  match loop evs (withStatus true o) with
  | (o, Some result) => (withStatus false o, Some result)
  | (o, None) => (o, None)
  end.

(** The snapshot that a tick hands to the median reduction. *)
Definition tickSnapshot (env : TickEnv) (o : State)
  : AggregatedProviderPrices :=
  let '(o, priceAgg) := NewPriceAggregator o in
  GetProviderPrices priceAgg (foldl (happen priceAgg) o (events env)).

(** The quotes an event stores under a given provider name. *)
Definition storedBy (name : string) (ev : Event) : option ProviderPrices :=
  match ev with
  | FetchStores n quotes => if decide (n = name) then Some quotes else None
  | RunnerReturns _ _ => None
  end.

(** The published map is nil or an allocated map object. *)
Definition allocated (o : State) : Prop :=
  forall l, prices o = Some l -> l ∈ dom (maps o).

(** A run of consecutive ticks. *)
Definition ticks (envs : list TickEnv) (o : State) : State :=
  foldl (fun o env => tick env o) o envs.

(** The reduction that a tick publishes, if it reaches publication. *)
Definition publishes (env : TickEnv) (o : State) : option PriceMap :=
  match panicAt env, Wait (events env) with
  | None, None => Median.ComputeMedian (tickSnapshot env o)
  | _, _ => None
  end.


End Oracle.

(** ** Concrete providers, quotes and schedules *)

Definition P1 : Oracle.Provider := Oracle.mkProvider (Oracle.Ret "P1").
Definition P2 : Oracle.Provider := Oracle.mkProvider (Oracle.Ret "P2").

(** A nil provider in the configured slice: [provider.Name()] panics. *)
Definition nilProvider : Oracle.Provider :=
  Oracle.mkProvider (Oracle.Panic "nil pointer dereference").

Definition btc : ProviderPrices := {[ "BTC/USD" := tp 30000 ]}.
Definition eth : ProviderPrices := {[ "ETH/USD" := tp 2000 ]}.

(** P1 delivers in time; the runner of the nil provider panics. *)
Definition panicSchedule : Oracle.TickEnv :=
  Oracle.mkTickEnv
    [Oracle.FetchStores "P1" btc;
     Oracle.RunnerReturns P1 Oracle.CaseDone;
     Oracle.RunnerReturns nilProvider Oracle.CaseTimeout]
    None 100.

(** The runner of P2 times out; P2's fetch completes and stores its quotes
    while the runner of P1 is still waiting for P1. *)
Definition lateSchedule : Oracle.TickEnv :=
  Oracle.mkTickEnv
    [Oracle.RunnerReturns P2 Oracle.CaseTimeout;
     Oracle.FetchStores "P2" eth;
     Oracle.FetchStores "P1" btc;
     Oracle.RunnerReturns P1 Oracle.CaseDone]
    None 100.




(** The only provider times out and stores nothing. *)
Definition silentSchedule : Oracle.TickEnv :=
  Oracle.mkTickEnv [Oracle.RunnerReturns P1 Oracle.CaseTimeout] None 200.

(** Two providers agree on 2000, a third reports an outlier. *)
Definition outlierScenario : AggregatedProviderPrices :=
  {[ "P1" := {[ "ETH/USD" := tp 2000 ]};
     "P2" := {[ "ETH/USD" := tp 99999999 ]};
     "P3" := {[ "ETH/USD" := tp 2000 ]} ]}.

(** ** The default provider factory *)

Module Factory.

(** A result with an error; an error is its message. *)
Inductive result (A : Type) : Type :=
| Ok (a : A)
| Err (err : string).
Arguments Ok {A} a.
Arguments Err {A} err.

(** [config.ProviderConfig], as far as the factory reads it: [p.Name],
    [p.API.Enabled] and [p.WebSocket.Enabled]. *)
Record ProviderConfig : Type := mkProviderConfig {
  Name : string;
  APIEnabled : bool;
  WebSocketEnabled : bool
}.

Section Factory.

(** The handlers and providers are built by code outside the sources at
    hand: the two handler factories are the fields [apiFactory] and
    [wsFactory] of the factory, and [base.NewProvider] with the API or the
    websocket options builds the provider. *)
Context {OracleConfig APIHandler WSHandler Provider : Type}.
Variable ValidateBasic : OracleConfig -> option string.
Variable Providers : OracleConfig -> list ProviderConfig.
Variable newAPIProvider :
  OracleConfig -> ProviderConfig -> APIHandler -> result Provider.
Variable newWSProvider :
  OracleConfig -> ProviderConfig -> WSHandler -> result Provider.

Record DefaultOracleProviderFactory : Type := mkFactory {
  apiFactory : ProviderConfig -> result APIHandler;
  wsFactory : ProviderConfig -> result WSHandler
}.

(** [NewDefaultProviderFactory]: each argument may be nil. *)
Definition NewDefaultProviderFactory {Logger : Type} (logger : option Logger)
    (apiFactory : option (ProviderConfig -> result APIHandler))
    (wsFactory : option (ProviderConfig -> result WSHandler))
  : result DefaultOracleProviderFactory :=
  match logger with
  | None => Err "logger cannot be nil"
  | Some _ =>
      match apiFactory with
      | None => Err "apiFactory cannot be nil"
      | Some api =>
          match wsFactory with
          | None => Err "wsFactory cannot be nil"
          | Some ws => Ok (mkFactory api ws)
          end
      end
  end.

(** The body of the loop for one provider configuration: the [switch]. *)
Definition provide (f : DefaultOracleProviderFactory) (cfg : OracleConfig)
    (p : ProviderConfig) : result Provider :=
  if APIEnabled p then
    match apiFactory f p with
    | Err err => Err err
    | Ok queryHandler => newAPIProvider cfg p queryHandler
    end
  else if WebSocketEnabled p then
    match wsFactory f p with
    | Err err => Err err
    | Ok queryHandler => newWSProvider cfg p queryHandler
    end
  else Err ("unknown provider type: " +:+ Name p).

(** The loop: the providers are filled in by index, and the first error
    ends the function. *)
Fixpoint provideAll (f : DefaultOracleProviderFactory) (cfg : OracleConfig)
    (ps : list ProviderConfig) : result (list Provider) :=
  match ps with
  | [] => Ok []
  | p :: ps =>
      match provide f cfg p with
      | Err err => Err err
      | Ok provider =>
          match provideAll f cfg ps with
          | Err err => Err err
          | Ok providers => Ok (provider :: providers)
          end
      end
  end.

(** The function returned by [Factory]. *)
Definition Factory (f : DefaultOracleProviderFactory) (cfg : OracleConfig)
  : result (list Provider) :=
  match ValidateBasic cfg with
  | Some err => Err err
  | None => provideAll f cfg (Providers cfg)
  end.

End Factory.

End Factory.

(** A concrete setting for the factory: a configuration is its list of
    provider configurations, always valid; handlers and providers are
    strings naming how they were built. *)
Definition demoFactory : @Factory.DefaultOracleProviderFactory string string :=
  Factory.mkFactory
    (fun p => Factory.Ok ("api handler for " +:+ Factory.Name p))
    (fun p => Factory.Ok ("ws handler for " +:+ Factory.Name p)).

Definition demoFactoryOf (cfg : list Factory.ProviderConfig)
  : Factory.result (list string) :=
  Factory.Factory (fun _ => None) (fun cfg => cfg)
    (fun _ p h => Factory.Ok ("api provider " +:+ Factory.Name p))
    (fun _ p h => Factory.Ok ("ws provider " +:+ Factory.Name p))
    demoFactory cfg.

Definition demoConfig : list Factory.ProviderConfig :=
  [Factory.mkProviderConfig "coingecko" true false;
   Factory.mkProviderConfig "kraken" false true;
   Factory.mkProviderConfig "both" true true].

(** ** The CoinGecko provider *)

Module CoinGecko.

(** [fmt.Sprintf] for a format whose only verbs are [%s] and whose
    arguments are strings: each [%s] is replaced by the next argument,
    and by Go's [%!s(MISSING)] when the arguments have run out. *)
Fixpoint Sprintf (format : string) (args : list string) : string :=
  match format with
  | EmptyString => EmptyString
  | String "%"%char (String "s"%char rest) =>
      match args with
      | [] => "%!s(MISSING)" +:+ Sprintf rest []
      | arg :: args => arg +:+ Sprintf rest args
      end
  | String c rest => String c (Sprintf rest args)
  end.

Definition apiKeyHeader : string := "x-cg-pro-api-key".
Definition baseURL : string := "https://api.coingecko.com/api/v3".
Definition apiURL : string := "https://pro-api.coingecko.com/api/v3".
Definition pairPriceRequest : string := "/simple/price?ids=%s&vs_currencies=%s".
Definition precision : string := "&precision=18".

(** [getPriceEndpoint], a function of the provider's API key. *)
Definition getPriceEndpoint (apiKey base quote : string) : string :=
  if decide (apiKey <> "")
  then Sprintf (apiURL +:+ pairPriceRequest +:+ precision) [base; quote]
  else Sprintf (baseURL +:+ pairPriceRequest +:+ precision) [base; quote].

(** [oracletypes.CurrencyPair]: its [Base] and [Quote] symbols. *)
Abbreviation CurrencyPair := (string * string)%type.
Definition Base (pair : CurrencyPair) : string := pair.1.
Definition Quote (pair : CurrencyPair) : string := pair.2.

(** The provider, as far as [getPrices] reads it. *)
Record Provider : Type := mkProvider {
  apiKey : string;
  bases : string;
  quotes : string;
  pairs : list CurrencyPair
}.

(** The HTTP request made by [getPrices]: the URL and, when an API key is
    set, the header added by [reqFn]. *)
Record Request : Type := mkRequest {
  url : string;
  header : option (string * string)
}.

Definition request (p : Provider) : Request :=
  mkRequest (getPriceEndpoint (apiKey p) (bases p) (quotes p))
            (if decide (apiKey p <> "")
             then Some (apiKeyHeader, apiKey p) else None).

Section GetPrices.

(** Outside the sources at hand: [float64] values, [strings.ToLower],
    [pair.Decimals()], and the conversion of a response value into a
    quote, [types.NewQuotePrice(providers.Float64ToUint256(v, decimals),
    time.Now())], which may fail. *)
Context {Float QuotePrice : Type}.
Variable ToLower : string -> string.
Variable Decimals : CurrencyPair -> Z.
Variable NewQuotePrice : Float -> Z -> Z -> option QuotePrice.

(** The value of [respMap[base][quote]], if both keys exist. *)
Definition quoted (respMap : gmap string (gmap string Float))
    (pair : CurrencyPair) : option Float :=
  match respMap !! ToLower (Base pair) with
  | None => None
  | Some byQuote => byQuote !! ToLower (Quote pair)
  end.

(** Body of the loop over [p.pairs]; [now] is the clock reading of this
    iteration. *)
Definition addPrice (respMap : gmap string (gmap string Float))
    (prices : gmap CurrencyPair QuotePrice) (entry : CurrencyPair * Z)
  : gmap CurrencyPair QuotePrice :=
  let pair := entry.1 in
  let now := entry.2 in
  let base := ToLower (Base pair) in
  let quote := ToLower (Quote pair) in
  match respMap !! base with
  | None => prices
  | Some byQuote =>
      match byQuote !! quote with
      | None => prices
      | Some v =>
          match NewQuotePrice v (Decimals pair) now with
          | None => prices
          | Some quotePrice => <[pair := quotePrice]> prices
          end
      end
  end.

(** [getPrices]: [send] is the HTTP round trip with the decoding of the
    body into [respMap], and [clock i] the time read in iteration [i]. *)
Definition getPrices (p : Provider)
    (send : Request -> Factory.result (gmap string (gmap string Float)))
    (clock : nat -> Z)
  : Factory.result (gmap CurrencyPair QuotePrice) :=
  match send (request p) with
  | Factory.Err err => Factory.Err err
  | Factory.Ok respMap =>
      Factory.Ok (foldl (addPrice respMap) ∅
                        (imap (fun i pair => (pair, clock i)) (pairs p)))
  end.

End GetPrices.

End CoinGecko.

(** * Properties *)

(** ** The stable sort *)

Section SortFacts.
Import Sort.

Lemma moveLeft_perm x r : moveLeft x r ≡ₚ x :: r.
Proof.
  induction r as [|y ys IH]; simpl; [done|].
  destruct (less x y); [|done].
  rewrite IH. apply Permutation_swap.
Qed.

Lemma moveLeft_descending x r : descending r -> descending (moveLeft x r).
Proof.
  unfold descending.
  induction r as [|y ys IH]; simpl; intros Hs.
  - repeat constructor.
  - apply StronglySorted_inv in Hs as [Hys Hall].
    unfold less. destruct (Z.ltb_spec (Price x) (Price y)) as [Hlt|Hge].
    + constructor; [by apply IH|].
      rewrite moveLeft_perm. constructor; [lia|done].
    + constructor; [by constructor|].
      constructor; [done|].
      eapply Forall_impl; [exact Hall|]. simpl. intros; lia.
Qed.

Lemma moveLeft_filter (P : TickerPrice -> Prop) `{!forall t, Decision (P t)}
    x r :
  (forall y, P x -> P y -> less x y = false) ->
  filter P (moveLeft x r) = filter P (x :: r).
Proof.
  intros HP.
  induction r as [|y ys IH]; simpl; [done|].
  destruct (less x y) eqn:Hl; [|done].
  rewrite filter_cons, IH, !filter_cons.
  destruct (decide (P y)) as [Hy|]; [|done].
  destruct (decide (P x)) as [Hx|]; [|done].
  rewrite (HP y Hx Hy) in Hl. done.
Qed.

Lemma insertionSortRev_from acc data :
  foldl (fun revPrefix x => moveLeft x revPrefix) acc data ≡ₚ acc ++ data
  /\ (descending acc ->
      descending (foldl (fun revPrefix x => moveLeft x revPrefix) acc data)).
Proof.
  revert acc. induction data as [|x data IH]; intros acc; simpl.
  - by rewrite app_nil_r.
  - destruct (IH (moveLeft x acc)) as [Hp Hs]. split.
    + rewrite Hp, moveLeft_perm. by rewrite <-Permutation_middle.
    + intros Hacc. by apply Hs, moveLeft_descending.
Qed.

Lemma descending_reverse r : descending r -> ascending (reverse r).
Proof.
  unfold descending, ascending.
  induction 1 as [|x r Hr IH Hall]; [constructor|].
  rewrite reverse_cons. apply StronglySorted_app; split_and!.
  - intros a b Ha Hb. apply list_elem_of_singleton in Hb as ->.
    rewrite elem_of_reverse in Ha.
    rewrite Forall_forall in Hall. by apply Hall.
  - done.
  - repeat constructor.
Qed.

Lemma SliceStable_perm data : SliceStable data ≡ₚ data.
Proof.
  unfold SliceStable, insertionSortRev.
  rewrite reverse_Permutation.
  destruct (insertionSortRev_from [] data) as [Hp _]. by rewrite Hp.
Qed.

Lemma SliceStable_ascending data : ascending (SliceStable data).
Proof.
  apply descending_reverse.
  destruct (insertionSortRev_from [] data) as [_ Hs].
  apply Hs. constructor.
Qed.

Lemma SliceStable_length data : length (SliceStable data) = length data.
Proof. by rewrite SliceStable_perm. Qed.

(** Stability: quotes of equal price keep their relative order. *)
Lemma SliceStable_stable (v : Dec) data :
  filter (fun t => Price t = v) (SliceStable data)
  = filter (fun t => Price t = v) data.
Proof.
  unfold SliceStable, insertionSortRev.
  rewrite filter_reverse.
  assert (forall acc,
    filter (fun t => Price t = v)
      (foldl (fun revPrefix x => moveLeft x revPrefix) acc data)
    = reverse (filter (fun t => Price t = v) data)
      ++ filter (fun t => Price t = v) acc) as H.
  { induction data as [|x data IH]; intros acc; simpl; [done|].
    rewrite IH, moveLeft_filter.
    - rewrite !filter_cons. destruct (decide (Price x = v)); [|done].
      by rewrite reverse_cons, <-app_assoc.
    - intros y Hx Hy. unfold less. apply Z.ltb_ge. lia. }
  rewrite H, filter_nil, app_nil_r. apply reverse_involutive.
Qed.

(** The sorted sequence of prices depends only on the multiset of the
    input prices. *)
Lemma SliceStable_prices_perm l1 l2 :
  l1 ≡ₚ l2 -> Price <$> SliceStable l1 = Price <$> SliceStable l2.
Proof.
  intros Hp.
  apply (StronglySorted_unique Z.le).
  - eapply StronglySorted_fmap; [|apply SliceStable_ascending]. done.
  - eapply StronglySorted_fmap; [|apply SliceStable_ascending]. done.
  - by rewrite !SliceStable_perm, Hp.
Qed.

End SortFacts.

(** ** The median reduction *)

Section MedianFacts.
Import Sort Median.

#[local] Instance pricesIn_Permutation asset :
  Proper ((≡ₚ) ==> (≡ₚ)) (pricesIn asset).
Proof. intros l1 l2 Hl. unfold pricesIn. by rewrite Hl. Qed.

Lemma appendPrice_lookup acc k p a :
  appendPrice acc (k, p) !! a
  = if decide (k = a) then Some (default [] (acc !! a) ++ [p]) else acc !! a.
Proof.
  unfold appendPrice. destruct (acc !! k) as [l|] eqn:Hk.
  - destruct (decide (k = a)) as [->|Hne].
    + by rewrite lookup_insert_eq, Hk.
    + by rewrite lookup_insert_ne.
  - rewrite lookup_insert_eq. destruct (decide (k = a)) as [->|Hne].
    + by rewrite lookup_insert_eq, Hk.
    + by rewrite !lookup_insert_ne.
Qed.

Lemma foldl_appendPrice_lookup flat acc a :
  foldl appendPrice acc flat !! a
  = match pricesIn a flat with
    | [] => acc !! a
    | l => Some (default [] (acc !! a) ++ l)
    end.
Proof.
  revert acc. induction flat as [|[k p] flat IH]; intros acc; [done|].
  cbn [foldl]. rewrite IH, appendPrice_lookup. unfold pricesIn. cbn.
  destruct (decide (k = a)) as [->|Hne]; cbn; [|done].
  fold (pricesIn a flat).
  destruct (pricesIn a flat); [done|]. by rewrite <-app_assoc.
Qed.

Lemma collect_flat visits : collect visits = foldl appendPrice ∅ (concat visits).
Proof.
  unfold collect. generalize (∅ : gmap string (list TickerPrice)).
  induction visits as [|v visits IH]; intros acc; [done|].
  cbn. by rewrite foldl_app, IH.
Qed.

Lemma collect_lookup visits a :
  collect visits !! a
  = match pricesIn a (concat visits) with [] => None | l => Some l end.
Proof.
  rewrite collect_flat, foldl_appendPrice_lookup, lookup_empty.
  by destruct (pricesIn a (concat visits)).
Qed.

(** A slice exists in [pricesByAsset] only once a price was appended. *)
Lemma collect_nonempty visits a l : collect visits !! a = Some l -> l <> [].
Proof.
  rewrite collect_lookup. destruct (pricesIn a (concat visits)); [done|].
  by intros [= <-].
Qed.

Lemma pricesIn_map_to_list a (m : ProviderPrices) :
  pricesIn a (map_to_list m) ≡ₚ option_list (m !! a).
Proof.
  induction m as [|k x m Hk IH] using map_ind.
  - by rewrite map_to_list_empty, lookup_empty.
  - unfold pricesIn. rewrite (map_to_list_insert m k x Hk). cbn.
    fold (pricesIn a (map_to_list m)).
    destruct (decide (k = a)) as [->|Hne].
    + rewrite lookup_insert_eq, IH, Hk. done.
    + by rewrite lookup_insert_ne.
Qed.

Lemma pricesIn_visits providers visits a :
  rangesProviders providers visits ->
  pricesIn a (concat visits) ≡ₚ pricesFor a providers.
Proof.
  intros (ps & Hps & Hall). unfold pricesFor. rewrite <-Hps. clear Hps.
  induction Hall as [|p v ps visits Hv _ IH]; [done|].
  cbn [concat]. unfold pricesIn. rewrite omap_app.
  fold (pricesIn a v) (pricesIn a (concat visits)).
  rewrite IH, Hv, pricesIn_map_to_list. cbn.
  by destruct (p.2 !! a).
Qed.

Lemma medianOf_fmap l :
  medianOf l = (Price <$> SliceStable l) !! (length l / 2)%nat.
Proof. unfold medianOf. by rewrite list_lookup_fmap, SliceStable_length. Qed.

Lemma medianOf_perm l1 l2 : l1 ≡ₚ l2 -> medianOf l1 = medianOf l2.
Proof.
  intros Hp. rewrite !medianOf_fmap.
  by rewrite (SliceStable_prices_perm l1 l2 Hp), (Permutation_length Hp).
Qed.

(** The index [len(prices)/2] is in range exactly for a non-empty slice. *)
Lemma medianOf_is_Some l : l <> [] -> is_Some (medianOf l).
Proof.
  intros Hl. unfold medianOf. apply fmap_is_Some, lookup_lt_is_Some.
  rewrite SliceStable_length. destruct l; [done|].
  apply Nat.div_lt; simpl; lia.
Qed.

Lemma medianOf_nil : medianOf [] = None.
Proof. reflexivity. Qed.

Lemma foldl_medianStep entries acc :
  NoDup entries.*1 ->
  Forall (fun e => e.2 <> []) entries ->
  exists m, foldl medianStep (Some acc) entries = Some m /\
    forall a, m !! a =
      match (list_to_map entries : gmap string (list TickerPrice)) !! a with
      | Some ps => medianOf ps
      | None => acc !! a
      end.
Proof.
  revert acc. induction entries as [|[k ps] entries IH]; intros acc Hnd Hall.
  { exists acc. split; [done|]. intros a. cbn. by rewrite lookup_empty. }
  cbn in Hnd. apply NoDup_cons in Hnd as [Hk Hnd].
  apply Forall_cons in Hall as [Hps Hall]. cbn in Hps.
  destruct (medianOf_is_Some ps Hps) as [x Hx].
  cbn [foldl medianStep fst snd]. rewrite Hx.
  destruct (IH (<[k := x]> acc) Hnd Hall) as (m & -> & Hm).
  exists m. split; [done|]. intros a. rewrite Hm. cbn.
  destruct (decide (k = a)) as [->|Hne].
  - rewrite !lookup_insert_eq.
    by rewrite (not_elem_of_list_to_map_1 _ _ Hk).
  - by rewrite !lookup_insert_ne.
Qed.

(** Every execution returns, and returns the map that sends each asset to
    the median of the prices reported for it. *)
Lemma ComputeMedianRun_result providers res :
  ComputeMedianRun providers res ->
  exists m, res = Some m /\
    forall a, m !! a = medianOf (pricesFor a providers).
Proof.
  intros [visits entries Hv He].
  assert (NoDup entries.*1) as Hnd.
  { rewrite He. apply NoDup_fst_map_to_list. }
  assert (Forall (fun e => e.2 <> []) entries) as Hne.
  { rewrite He. apply Forall_forall. intros [a l] Hin.
    apply elem_of_map_to_list in Hin. by eapply collect_nonempty. }
  destruct (foldl_medianStep entries ∅ Hnd Hne) as (m & Hm & Hlook).
  exists m. split; [done|]. intros a. rewrite Hlook.
  rewrite (list_to_map_proper _ _ Hnd He), list_to_map_to_list.
  rewrite collect_lookup, lookup_empty.
  pose proof (pricesIn_visits providers visits a Hv) as Hp.
  destruct (pricesIn a (concat visits)) as [|t l].
  - apply Permutation_nil_l in Hp. by rewrite <-Hp.
  - by apply medianOf_perm.
Qed.

Lemma rangesProviders_canonical providers :
  rangesProviders providers
    ((fun p => map_to_list p.2) <$> map_to_list providers).
Proof.
  exists (map_to_list providers). split; [done|].
  apply Forall2_fmap_r, Forall_Forall2_diag, Forall_forall. intros p _. by cbn.
Qed.

Lemma ComputeMedian_is_run providers :
  ComputeMedianRun providers (ComputeMedian providers).
Proof.
  unfold ComputeMedian. eapply RunOf; [|done].
  apply rangesProviders_canonical.
Qed.



Lemma ascending_lookup l i j a b :
  ascending l -> l !! i = Some a -> l !! j = Some b -> (i <= j)%nat ->
  Price a <= Price b.
Proof.
  intros Hs. revert i j. induction Hs as [|x l Hl IH Hall]; intros i j.
  { by rewrite lookup_nil. }
  destruct i as [|i], j as [|j]; cbn; intros Ha Hb Hij.
  - assert (a = b) as -> by congruence. lia.
  - injection Ha as ->. rewrite Forall_forall in Hall.
    apply Hall. by eapply list_elem_of_lookup_2.
  - lia.
  - eapply IH; eauto. lia.
Qed.

Lemma ComputeMedian_result providers :
  exists m, ComputeMedian providers = Some m /\
    forall a, m !! a = medianOf (pricesFor a providers).
Proof. apply ComputeMedianRun_result, ComputeMedian_is_run. Qed.

Lemma pricesFor_elem_of a providers t :
  t ∈ pricesFor a providers <->
  exists p pp, providers !! p = Some pp /\ pp !! a = Some t.
Proof.
  unfold pricesFor. rewrite list_elem_of_omap. split.
  - intros ([p pp] & Hin & Hpp). apply elem_of_map_to_list in Hin. eauto.
  - intros (p & pp & Hp & Hpp). exists (p, pp).
    by rewrite elem_of_map_to_list.
Qed.

End MedianFacts.

(** ** Specification of ComputeMedian *)

Section MedianSpec.
Import Sort Median.

(** C1. Along every visiting order, for every pair [p] reported by at
    least one provider, ComputeMedian gathers the list [L] of the prices
    reported for [p], sorts it in non-decreasing order by a stable sort
    and emits the price at zero-based index [|L|/2] of the sorted list:
    no earlier element is larger and no later element is smaller, so it
    is the median for odd [|L|] and the upper-middle element for even
    [|L|].  For the four prices 1800, 1900, 2000, 2100 the output is
    2000. *)
Theorem ComputeMedian_upper_middle providers visits entries p
    (Hvisits : rangesProviders providers visits)
    (Hentries : entries ≡ₚ map_to_list (collect visits))
    (Hreported : pricesFor p providers <> []) :
  (exists L t m,
      collect visits !! p = Some L /\ L ≡ₚ pricesFor p providers /\
      SliceStable L !! (length L / 2)%nat = Some t /\
      reduce entries = Some m /\ m !! p = Some (Price t) /\
      ascending (SliceStable L) /\ SliceStable L ≡ₚ L /\
      (forall v, filter (fun q => Price q = v) (SliceStable L)
                 = filter (fun q => Price q = v) L) /\
      (forall i q, SliceStable L !! i = Some q ->
         ((i <= length L / 2)%nat -> Price q <= Price t) /\
         ((length L / 2 <= i)%nat -> Price t <= Price q)))
  /\ ComputeMedian scenarioC = Some {[ "ETH/USD" := 2000 ]}.
Proof.
  split; [|by vm_compute].
  pose proof (pricesIn_visits providers visits p Hvisits) as Hperm.
  pose proof (collect_lookup visits p) as Hcol.
  destruct (pricesIn p (concat visits)) as [|q0 L0] eqn:HL.
  { apply Permutation_nil_l in Hperm. by rewrite <-Hperm in Hreported. }
  set (L := q0 :: L0) in *.
  destruct (ComputeMedianRun_result providers (reduce entries)
              (RunOf providers visits entries Hvisits Hentries))
    as (m & Hm & Hlook).
  specialize (Hlook p). rewrite <-(medianOf_perm _ _ Hperm) in Hlook.
  unfold medianOf in Hlook. rewrite SliceStable_length in Hlook.
  destruct (SliceStable L !! (length L / 2)%nat) as [t|] eqn:Ht.
  2:{ apply lookup_ge_None in Ht. rewrite SliceStable_length in Ht.
      assert (length L / 2 < length L)%nat by (apply Nat.div_lt; cbn; lia).
      lia. }
  exists L, t, m. split_and!; try done.
  - apply SliceStable_ascending.
  - apply SliceStable_perm.
  - intros v. apply SliceStable_stable.
  - intros i q Hq. split; intros Hi.
    + eapply ascending_lookup; eauto using SliceStable_ascending.
    + eapply ascending_lookup; eauto using SliceStable_ascending.
Qed.

Lemma ComputeMedian_upper_middle_witness :
  rangesProviders scenarioC
    ((fun p => map_to_list p.2) <$> map_to_list scenarioC) /\
  pricesFor "ETH/USD" scenarioC <> [] /\
  exists L t m,
    collect ((fun p => map_to_list p.2) <$> map_to_list scenarioC)
      !! "ETH/USD" = Some L /\
    SliceStable L !! (length L / 2)%nat = Some t /\
    reduce (map_to_list
              (collect ((fun p => map_to_list p.2) <$> map_to_list scenarioC)))
      = Some m /\
    m !! "ETH/USD" = Some (Price t).
Proof.
  assert (pricesFor "ETH/USD" scenarioC <> []) as Hne.
  { vm_compute. discriminate. }
  split; [apply rangesProviders_canonical|]. split; [exact Hne|].
  destruct (ComputeMedian_upper_middle scenarioC _ _ "ETH/USD"
              (rangesProviders_canonical scenarioC)
              (reflexivity _) Hne)
    as [(L & t & m & H1 & _ & H3 & H4 & H5 & _) _].
  exists L, t, m. auto.
Defined.

(** C6. ComputeMedian is deterministic: any two executions on the same
    snapshot, whatever the order in which providers and assets are
    visited, return the same pair-to-price map. *)
Theorem ComputeMedian_deterministic providers res1 res2
    (Hrun1 : ComputeMedianRun providers res1)
    (Hrun2 : ComputeMedianRun providers res2) :
  res1 = res2 /\ res1 = ComputeMedian providers.
Proof.
  destruct (ComputeMedianRun_result _ _ Hrun1) as (m1 & -> & H1).
  destruct (ComputeMedianRun_result _ _ Hrun2) as (m2 & -> & H2).
  destruct (ComputeMedian_result providers) as (m & -> & H).
  split; f_equal; apply map_eq; intros a; congruence.
Qed.

(** A second visiting order for scenario C: providers in reverse. *)
Lemma scenarioC_reverse_run :
  ComputeMedianRun scenarioC
    (reduce (reverse (map_to_list (collect
       ((fun p => map_to_list p.2) <$> reverse (map_to_list scenarioC)))))).
Proof.
  eapply RunOf; [|apply reverse_Permutation].
  exists (reverse (map_to_list scenarioC)).
  split; [apply reverse_Permutation|].
  apply Forall2_fmap_r, Forall_Forall2_diag, Forall_forall. intros p _. by cbn.
Defined.

Lemma ComputeMedian_deterministic_witness :
  reduce (reverse (map_to_list (collect
     ((fun p => map_to_list p.2) <$> reverse (map_to_list scenarioC)))))
  = ComputeMedian scenarioC.
Proof.
  exact (proj1 (ComputeMedian_deterministic scenarioC _ _
                  scenarioC_reverse_run (ComputeMedian_is_run scenarioC))).
Defined.

(** C7. The domain of ComputeMedian's output is exactly the set of pairs
    reported by at least one provider; every output price is one of the
    prices reported for its pair; an empty snapshot yields an empty
    result and no error. *)
Theorem ComputeMedian_domain (providers : AggregatedProviderPrices) :
  (exists m, ComputeMedian providers = Some m /\
     (forall a, a ∈ dom m <->
        exists p pp, providers !! p = Some pp /\ is_Some (pp !! a)) /\
     (forall a x, m !! a = Some x ->
        exists p pp t,
          providers !! p = Some pp /\ pp !! a = Some t /\ Price t = x))
  /\ ComputeMedian ∅ = Some ∅.
Proof.
  split; [|by vm_compute].
  destruct (ComputeMedian_result providers) as (m & Hm & Hlook).
  exists m. split; [done|]. split.
  - intros a. rewrite elem_of_dom, Hlook. split.
    + intros [x Hx]. destruct (pricesFor a providers) as [|t l] eqn:Hl.
      { by rewrite medianOf_nil in Hx. }
      assert (t ∈ pricesFor a providers) as Hin by (rewrite Hl; left).
      apply pricesFor_elem_of in Hin as (p & pp & Hp & Hpp). eauto.
    + intros (p & pp & Hp & [t Ht]). apply medianOf_is_Some.
      intros Hnil.
      assert (t ∈ pricesFor a providers) as Hin
        by (apply pricesFor_elem_of; eauto).
      rewrite Hnil in Hin. by apply not_elem_of_nil in Hin.
  - intros a x. rewrite Hlook. unfold medianOf.
    rewrite fmap_Some. intros (t & Ht & ->).
    apply list_elem_of_lookup_2 in Ht. rewrite SliceStable_perm in Ht.
    apply pricesFor_elem_of in Ht as (p & pp & Hp & Hpp).
    exists p, pp, t. done.
Qed.


End MedianSpec.

(** ** The oracle: runners, ticks, publication *)

Section OracleFacts.
Import Oracle.

Lemma mapsCopy_union dst src : mapsCopy dst src = src ∪ dst.
Proof.
  unfold mapsCopy. induction src as [|k v src Hk IH] using map_ind.
  - by rewrite map_fold_empty, (left_id_L ∅ (∪)).
  - rewrite map_fold_insert_L; [|intros; by apply insert_insert_ne|done].
    by rewrite IH, insert_union_l.
Qed.

Lemma mapsCopy_empty src : mapsCopy ∅ src = src.
Proof. by rewrite mapsCopy_union, (right_id_L ∅ (∪)). Qed.

(** The events of a tick touch nothing but the tick's aggregator. *)
Lemma happen_fold a evs o :
  foldl (happen a) o evs
  = withAggregators (fun _ => aggregators (foldl (happen a) o evs)) o.
Proof.
  revert o. induction evs as [|ev evs IH]; intros o; cbn [foldl].
  - by destruct o.
  - rewrite IH. by destruct ev, o.
Qed.

Lemma snapshot_lookup a evs o name :
  a ∈ dom (aggregators o) ->
  GetProviderPrices a (foldl (happen a) o evs) !! name
  = match last (omap (storedBy name) evs) with
    | Some quotes => Some quotes
    | None => GetProviderPrices a o !! name
    end.
Proof.
  revert o. induction evs as [|ev evs IH]; intros o Ha; [done|].
  cbn [foldl]. rewrite IH.
  2:{ destruct ev; [|done]. cbn. by rewrite dom_alter_L. }
  apply elem_of_dom in Ha as [agg Hagg].
  destruct ev as [n quotes|]; cbn; [|done].
  destruct (decide (n = name)) as [->|Hne]; cbn.
  - destruct (omap (storedBy name) evs) as [|q' l] eqn:Hl; cbn.
    + unfold GetProviderPrices. cbn.
      rewrite lookup_alter_eq, Hagg. cbn. by rewrite lookup_insert_eq.
    + destruct (last (q' :: l)) eqn:E; [done|]. by apply last_None in E.
  - destruct (last (omap (storedBy name) evs)); [done|].
    unfold GetProviderPrices. cbn.
    rewrite lookup_alter_eq, Hagg. cbn. by rewrite lookup_insert_ne.
Qed.

(** Case analysis on the path taken by a tick. *)
Ltac tick_cases env evs :=
  unfold tick, tickBody, reach, NewPriceAggregator;
  destruct env as [evs [[[] ?]|] ?]; cbn;
  try (destruct (Wait evs); cbn);
  try (destruct (Median.ComputeMedian _); cbn).

Lemma reads_view o : reads o = view o.
Proof.
  unfold reads, view, GetPrices, makeMap. cbn.
  by rewrite lookup_insert_eq, mapsCopy_empty.
Qed.

Lemma tick_spec env o :
  tick env o =
  match publishes env o with
  | None => withAggregators (fun _ => aggregators (tick env o)) o
  | Some medianPrices =>
      let m := fresh (dom (maps o)) in
      SetLastSyncTime (now env)
        (SetPrices (Some m)
           (withMaps (insert m medianPrices)
              (withAggregators (fun _ => aggregators (tick env o)) o)))
  end.
Proof.
  unfold publishes, tickSnapshot.
  tick_cases env evs; try (by destruct o);
    rewrite (happen_fold _ evs); by destruct o.
Qed.









Lemma allocated_New ps : allocated (New ps).
Proof.
  intros l. unfold New. cbn. intros [= <-].
  rewrite dom_insert_L. set_solver.
Qed.

Lemma loop_ticks envs rest o :
  loop ((TickerC <$> envs) ++ rest) o = loop rest (ticks envs o).
Proof.
  revert o. induction envs as [|env envs IH]; intros o; [done|].
  cbn. apply IH.
Qed.

(** A returning loop met an exit event after ticks only. *)
Lemma loop_returns evs o o' result :
  loop evs o = (o', Some result) ->
  exists envs rest,
    (exists err, evs = (TickerC <$> envs) ++ CtxDone err :: rest
                 /\ result = Some err)
    \/ (evs = (TickerC <$> envs) ++ CloserDone :: rest /\ result = None).
Proof.
  revert o. induction evs as [|ev evs IH]; intros o; [done|].
  destruct ev as [err| |env]; cbn.
  - intros [= <- <-]. exists [], evs. left. by exists err.
  - intros [= <- <-]. exists [], evs. by right.
  - intros Hloop. destruct (IH _ Hloop) as (envs & rest & Hcase).
    exists (env :: envs), rest.
    destruct Hcase as [(err & -> & ->)|[-> ->]]; [left; by exists err|by right].
Qed.

End OracleFacts.

(** ** Specification of the oracle *)

Section OracleSpec.
Import Oracle.

(** C2, as stated, fails: the runner of a provider whose [Name] call
    panics returns a non-nil error, the group wait returns it, and the
    tick publishes nothing although P1 delivered its prices. *)
Lemma runner_body_panic_fails_tick :
  ~ (forall provider sel, fetchPricesFn provider sel = None)
  /\ wellScheduled (New [P1; nilProvider]) panicSchedule
  /\ Wait (events panicSchedule)
     = Some "panic in fetchPricesFn nil pointer dereference"
  /\ tickSnapshot panicSchedule (New [P1; nilProvider]) !! "P1" = Some btc
  /\ view (tick panicSchedule (New [P1; nilProvider])) = (∅, 0).
Proof.
  split_and!.
  - intros H. specialize (H nilProvider CaseTimeout). discriminate H.
  - unfold wellScheduled. by cbn.
  - reflexivity.
  - by vm_compute.
  - by vm_compute.
Qed.

(** C2, amended.  A runner whose body does not panic returns a nil error
    whichever case its select takes (done, error or panic of the fetch
    delivered on the error channel, timeout).  A panic in the runner body
    is recovered into the error "panic in fetchPricesFn ..."; the group
    wait then returns an error and the tick leaves the published prices
    and the sync time as they were. *)
Theorem fetchPricesFn_nil_unless_body_panics provider sel :
  (forall name, Name provider = Ret name ->
     fetchPricesFn provider sel = None
     /\ forall f, fetchPricesFn provider (fetchGoroutine name f).2 = None)
  /\ (forall r, Name provider = Panic r ->
        fetchPricesFn provider sel = Some ("panic in fetchPricesFn " +:+ r)
        /\ forall env o,
             RunnerReturns provider sel ∈ events env ->
             is_Some (Wait (events env))
             /\ view (tick env o) = view o).
Proof.
  split.
  - intros name Hname. unfold fetchPricesFn, runnerBody. rewrite Hname.
    split; [by destruct sel|]. by intros [].
  - intros r Hr.
    assert (fetchPricesFn provider sel
            = Some ("panic in fetchPricesFn " +:+ r)) as Herr.
    { unfold fetchPricesFn, runnerBody. by rewrite Hr. }
    split; [done|]. intros env o Hin.
    assert (is_Some (Wait (events env))) as Hwait.
    { unfold Wait. apply head_is_Some.
      assert ("panic in fetchPricesFn " +:+ r ∈ omap runnerError (events env))
        as Hmem.
      { apply list_elem_of_omap. eexists. split; [exact Hin|done]. }
      intros Hnil. rewrite Hnil in Hmem. by apply not_elem_of_nil in Hmem. }
    split; [done|].
    rewrite tick_spec. unfold publishes.
    destruct Hwait as [err ->]. by destruct (panicAt env), o.
Qed.

(** C4. When the group wait of a tick returns a non-nil error, or a call
    of the tick body panics, the tick publishes nothing: the price map,
    its content and the sync time are those from before the tick, and
    the loop goes on with the next event. *)
Theorem tick_failure_keeps_publication env o
    (Hfail : is_Some (Wait (events env)) \/ is_Some (panicAt env)) :
  prices (tick env o) = prices o
  /\ maps (tick env o) = maps o
  /\ lastPriceSync (tick env o) = lastPriceSync o
  /\ view (tick env o) = view o
  /\ snd (loop [TickerC env] o) = None
  /\ forall evs, loop (TickerC env :: evs) o = loop evs (tick env o).
Proof.
  assert (publishes env o = None) as Hnone.
  { unfold publishes. destruct Hfail as [[err ->]|[p ->]]; [|done].
    by destruct (panicAt env). }
  pose proof (tick_spec env o) as Heq. rewrite Hnone in Heq.
  split_and!; [rewrite Heq; by destruct o..|done|done].
Qed.

Lemma tick_failure_keeps_publication_witness :
  is_Some (Wait (events panicSchedule))
  /\ view (tick panicSchedule (New [P1; nilProvider]))
     = view (New [P1; nilProvider]).
Proof.
  assert (is_Some (Wait (events panicSchedule))) as H by (by eexists).
  split; [exact H|].
  exact (proj1 (proj2 (proj2 (proj2
    (tick_failure_keeps_publication panicSchedule
       (New [P1; nilProvider]) (or_introl H)))))).
Defined.





(** C8. Every call to GetPrices returns a new map holding exactly the
    published entries; whatever is then done to the returned map, the
    oracle's published map, its sync time and the result of the next
    GetPrices call stay the same. *)
Theorem GetPrices_defensive_copy o (Halloc : allocated o) :
  exists p,
    snd (GetPrices o) = Some p
    /\ (p ∉ dom (maps o)) /\ Some p <> prices o
    /\ deref (fst (GetPrices o)) (Some p) = deref o (prices o)
    /\ prices (fst (GetPrices o)) = prices o
    /\ view (fst (GetPrices o)) = view o
    /\ forall content,
         let o2 := mutate (Some p) content (fst (GetPrices o)) in
         prices o2 = prices o
         /\ view o2 = view o
         /\ snd (GetPrices o2) <> Some p
         /\ deref (fst (GetPrices o2)) (snd (GetPrices o2))
            = deref o (prices o).
Proof.
  unfold GetPrices, makeMap. cbn [fst snd].
  set (p := fresh (dom (maps o))).
  assert (p ∉ dom (maps o)) as Hfresh by apply is_fresh.
  assert (Some p <> prices o) as Hne.
  { intros Heq. symmetry in Heq. by apply Halloc in Heq. }
  assert (forall c (o' : State),
            maps o' = <[p := c]> (maps o) ->
            deref o' (prices o) = deref o (prices o)) as Hframe.
  { intros c o' Hmaps. unfold deref.
    destruct (prices o) as [l|] eqn:Hl; [|done].
    rewrite Hmaps, lookup_insert_ne; [done|]. congruence. }
  exists p. split_and!; try done.
  - cbn. by rewrite lookup_insert_eq, mapsCopy_empty.
  - unfold view. cbn [prices withMaps lastPriceSync]. f_equal.
    by eapply Hframe.
  - intros content. cbn zeta. split_and!.
    + done.
    + unfold view, mutate. cbn [prices withMaps lastPriceSync]. f_equal.
      eapply (Hframe content). cbn. by rewrite insert_insert_eq.
    + cbn. rewrite !dom_insert_L. intros [= Heq].
      assert (p ∈ ({[p]} ∪ ({[p]} ∪ dom (maps o)) : gset loc)) as Hin
        by set_solver.
      rewrite <-Heq in Hin at 1. by apply is_fresh in Hin.
    + cbn. rewrite lookup_insert_eq, mapsCopy_empty.
      change (deref (mutate (Some p) content
                       (withMaps (insert p (mapsCopy ∅ (deref o (prices o)))) o))
                    (prices o) = deref o (prices o)).
      apply (Hframe content). cbn. by rewrite insert_insert_eq.
Qed.

Lemma GetPrices_defensive_copy_witness :
  allocated (New [P1])
  /\ exists p,
       snd (GetPrices (New [P1])) = Some p
       /\ view (mutate (Some p) {[ "BTC/USD" := 1 ]}
                  (fst (GetPrices (New [P1]))))
          = view (New [P1]).
Proof.
  split; [apply allocated_New|].
  destruct (GetPrices_defensive_copy (New [P1]) (allocated_New [P1]))
    as (p & Hp & _ & _ & _ & _ & _ & Hmut).
  exists p. split; [exact Hp|].
  exact (proj1 (proj2 (Hmut {[ "BTC/USD" := 1 ]}))).
Defined.

(** C9. Start stays in its loop as long as only ticks fire; it returns
    when the parent context is done or the closer is closed, with the
    context's error in the first case and nil in the second, and it
    returns for no other reason. *)
Theorem Start_returns_cause envs rest err o :
  snd (Start (TickerC <$> envs) o) = None
  /\ IsRunning (fst (Start (TickerC <$> envs) o)) = true
  /\ snd (Start ((TickerC <$> envs) ++ CtxDone err :: rest) o)
     = Some (Some err)
  /\ snd (Start ((TickerC <$> envs) ++ CloserDone :: rest) o) = Some None
  /\ IsRunning (fst (Start ((TickerC <$> envs) ++ CtxDone err :: rest) o))
     = false
  /\ IsRunning (fst (Start ((TickerC <$> envs) ++ CloserDone :: rest) o))
     = false
  /\ forall evs result,
       snd (Start evs o) = Some result ->
       exists envs' rest',
         (exists err', evs = (TickerC <$> envs') ++ CtxDone err' :: rest'
                       /\ result = Some err')
         \/ (evs = (TickerC <$> envs') ++ CloserDone :: rest'
             /\ result = None).
Proof.
  assert (forall o1, status (ticks envs o1) = status o1) as Hstatus.
  { induction envs as [|env envs' IH]; intros o1; [done|].
    unfold ticks in *. cbn [foldl]. rewrite IH.
    rewrite tick_spec. by destruct (publishes env o1), o1. }
  unfold Start.
  rewrite <-(app_nil_r (TickerC <$> envs)) at 1 2.
  rewrite !loop_ticks. cbn.
  split_and!; try done; try (unfold IsRunning; by rewrite Hstatus).
  intros evs result.
  destruct (loop evs (withStatus true o)) as [o' [r|]] eqn:Hloop; [|done].
  cbn. intros [= <-]. by eapply loop_returns.
Qed.

End OracleSpec.

(** ** Further properties of the oracle *)

Section OracleMoreFacts.
Import Oracle.



Lemma tickSnapshot_lookup env o name :
  tickSnapshot env o !! name = last (omap (storedBy name) (events env)).
Proof.
  unfold tickSnapshot, NewPriceAggregator. rewrite snapshot_lookup.
  - destruct (last _); [done|].
    unfold GetProviderPrices. cbn. by rewrite lookup_insert_eq.
  - cbn. rewrite dom_insert_L. set_solver.
Qed.

Lemma tick_published env o m :
  publishes env o = Some m ->
  prices (tick env o) = Some (fresh (dom (maps o)))
  /\ maps (tick env o) = <[fresh (dom (maps o)) := m]> (maps o)
  /\ lastPriceSync (tick env o) = now env
  /\ view (tick env o) = (m, now env).
Proof.
  intros Hpub. pose proof (tick_spec env o) as Heq. rewrite Hpub in Heq.
  rewrite Heq. unfold view. cbn. by rewrite lookup_insert_eq.
Qed.

Lemma tick_unpublished env o :
  publishes env o = None ->
  tick env o = withAggregators (fun _ => aggregators (tick env o)) o.
Proof.
  intros Hpub. pose proof (tick_spec env o) as Heq. by rewrite Hpub in Heq.
Qed.

(** The fields that no tick assigns. *)
Lemma tick_config env o :
  providers (tick env o) = providers o
  /\ closed (tick env o) = closed o
  /\ status (tick env o) = status o.
Proof.
  rewrite tick_spec. by destruct (publishes env o), o.
Qed.

Lemma tick_maps env o l :
  l ∈ dom (maps o) -> maps (tick env o) !! l = maps o !! l.
Proof.
  intros Hl. destruct (publishes env o) as [m|] eqn:Hpub.
  - destruct (tick_published env o m Hpub) as (_ & -> & _).
    rewrite lookup_insert_ne; [done|].
    intros Heq. rewrite <-Heq in Hl. by apply is_fresh in Hl.
  - rewrite (tick_unpublished env o Hpub). by destruct o.
Qed.

Lemma tick_allocated env o : allocated o -> allocated (tick env o).
Proof.
  intros Halloc l. destruct (publishes env o) as [m|] eqn:Hpub.
  - destruct (tick_published env o m Hpub) as (-> & -> & _).
    intros [= <-]. rewrite dom_insert_L. set_solver.
  - rewrite (tick_unpublished env o Hpub). destruct o. cbn. apply Halloc.
Qed.

Lemma happen_fold_withStatus a b evs o :
  foldl (happen a) (withStatus b o) evs = withStatus b (foldl (happen a) o evs).
Proof.
  revert o. induction evs as [|ev evs IH]; intros o; [done|].
  cbn [foldl]. rewrite <-IH. by destruct ev.
Qed.

Lemma tick_withStatus b env o :
  tick env (withStatus b o) = withStatus b (tick env o).
Proof.
  unfold tick, NewPriceAggregator. cbn [aggregators withStatus].
  set (a := fresh (dom (aggregators o))).
  change (withAggregators <[a:=∅]> (withStatus b o))
    with (withStatus b (withAggregators <[a:=∅]> o)).
  generalize (withAggregators <[a:=∅]> o). intros o1.
  unfold tickBody.
  destruct (reach env AtFanOut); [|done].
  rewrite happen_fold_withStatus.
  destruct (reach env AtWait); [|done].
  destruct (Wait (events env)); [done|].
  destruct (reach env AtSnapshot); [|done].
  change (GetProviderPrices a (withStatus b (foldl (happen a) o1 (events env))))
    with (GetProviderPrices a (foldl (happen a) o1 (events env))).
  destruct (reach env AtReduce); [|done].
  by destruct (Median.ComputeMedian _).
Qed.

Lemma ticks_withStatus b envs o :
  ticks envs (withStatus b o) = withStatus b (ticks envs o).
Proof.
  revert o. induction envs as [|env envs IH]; intros o; [done|].
  unfold ticks in *. cbn [foldl]. by rewrite tick_withStatus, IH.
Qed.

Lemma ticks_allocated envs o : allocated o -> allocated (ticks envs o).
Proof.
  revert o. induction envs as [|env envs IH]; intros o Ho; [done|].
  unfold ticks in *. cbn [foldl]. by apply IH, tick_allocated.
Qed.

Lemma loop_allocated evs o : allocated o -> allocated (fst (loop evs o)).
Proof.
  revert o. induction evs as [|[err| |env] evs IH]; intros o Ho;
    cbn [loop fst]; [done|by destruct o|done|].
  by apply IH, tick_allocated.
Qed.

Lemma ComputeMedian_dom providers m a :
  Median.ComputeMedian providers = Some m ->
  a ∈ dom m <->
  exists name quotes, providers !! name = Some quotes /\ is_Some (quotes !! a).
Proof.
  intros Hm. destruct (ComputeMedian_result providers) as (m' & Hm' & Hlook).
  assert (m' = m) as -> by congruence.
  rewrite elem_of_dom, Hlook. split.
  - intros [x Hx]. destruct (Median.pricesFor a providers) as [|t l] eqn:Hl.
    { by rewrite medianOf_nil in Hx. }
    assert (t ∈ Median.pricesFor a providers) as Hin by (rewrite Hl; left).
    apply pricesFor_elem_of in Hin as (p & pp & Hp & Hpp). eauto.
  - intros (p & pp & Hp & [t Ht]). apply medianOf_is_Some. intros Hnil.
    assert (t ∈ Median.pricesFor a providers) as Hin
      by (apply pricesFor_elem_of; eauto).
    rewrite Hnil in Hin. by apply not_elem_of_nil in Hin.
Qed.

Lemma tickSnapshot_empty env o :
  Forall (fun ev => forall n q, ev <> FetchStores n q) (events env) ->
  tickSnapshot env o = ∅.
Proof.
  intros Hno. apply map_eq. intros name.
  rewrite tickSnapshot_lookup, lookup_empty.
  assert (omap (storedBy name) (events env) = []) as ->; [|done].
  induction Hno as [|ev evs Hev _ IH]; [done|]. cbn. rewrite IH.
  destruct ev as [n q|]; [|done]. by destruct (Hev n q).
Qed.

Lemma publishes_Some env o :
  panicAt env = None -> Wait (events env) = None ->
  exists m, Median.ComputeMedian (tickSnapshot env o) = Some m
            /\ publishes env o = Some m.
Proof.
  intros Hp Hw. unfold publishes. rewrite Hp, Hw.
  destruct (ComputeMedian_result (tickSnapshot env o)) as (m & Hm & _).
  by exists m.
Qed.

Lemma ticks_maps envs o l :
  l ∈ dom (maps o) -> maps (ticks envs o) !! l = maps o !! l.
Proof.
  revert o. induction envs as [|env envs IH]; intros o Hl; [done|].
  unfold ticks in *. cbn [foldl]. rewrite IH.
  - by apply tick_maps.
  - apply elem_of_dom. rewrite tick_maps by done. by apply elem_of_dom.
Qed.

Lemma ticks_lastPriceSync envs o :
  lastPriceSync (ticks envs o) ∈ lastPriceSync o :: (now <$> envs).
Proof.
  revert o. induction envs as [|env envs IH]; intros o; [left|].
  unfold ticks in *. cbn [foldl fmap list_fmap]. specialize (IH (tick env o)).
  apply elem_of_cons in IH as [Heq|IH]; [|by do 2 right].
  rewrite Heq. destruct (publishes env o) as [m|] eqn:Hpub.
  - destruct (tick_published env o m Hpub) as (_ & _ & -> & _). right. left.
  - rewrite (tick_unpublished env o Hpub). destruct o. left.
Qed.

End OracleMoreFacts.

Section OracleExtras.
Import Oracle.

(** X1. After a tick in which no call panics and no runner returns an
    error, GetPrices returns exactly the median reduction of that tick's
    snapshot: its keys are the assets quoted in the snapshot, whatever was
    published before, and the sync time is the tick's clock reading. *)
Theorem tick_publishes_reduction env o
    (Hpanic : panicAt env = None) (Hwait : Wait (events env) = None) :
  exists m,
    Median.ComputeMedian (tickSnapshot env o) = Some m
    /\ reads (tick env o) = (m, now env)
    /\ forall a, a ∈ dom m <->
         exists name quotes,
           last (omap (storedBy name) (events env)) = Some quotes
           /\ is_Some (quotes !! a).
Proof.
  destruct (publishes_Some env o Hpanic Hwait) as (m & Hm & Hpub).
  exists m. split; [done|]. split.
  - rewrite reads_view. by apply tick_published.
  - intros a. rewrite (ComputeMedian_dom _ _ a Hm).
    by setoid_rewrite tickSnapshot_lookup.
Qed.

Lemma tick_publishes_reduction_witness :
  exists m,
    Median.ComputeMedian (tickSnapshot lateSchedule (New [P2; P1])) = Some m
    /\ reads (tick lateSchedule (New [P2; P1])) = (m, 100).
Proof.
  destruct (tick_publishes_reduction lateSchedule (New [P2; P1])
              eq_refl eq_refl) as (m & Hm & Hreads & _).
  exists m. split; [exact Hm|exact Hreads].
Defined.



(** X3. A tick that succeeds although no fetch stored anything replaces
    the published prices by the empty map and still advances the sync
    time: earlier prices do not stay visible. *)
Theorem tick_without_stores_publishes_empty env o
    (Hpanic : panicAt env = None) (Hwait : Wait (events env) = None)
    (Hquiet : Forall (fun ev => forall n q, ev <> FetchStores n q)
                     (events env)) :
  reads (tick env o) = (∅, now env).
Proof.
  destruct (publishes_Some env o Hpanic Hwait) as (m & Hm & Hpub).
  rewrite (tickSnapshot_empty env o Hquiet) in Hm.
  assert (Median.ComputeMedian ∅ = Some ∅) as Hempty by (by vm_compute).
  assert (m = ∅) as -> by congruence.
  rewrite reads_view. by apply tick_published.
Qed.

Lemma tick_without_stores_publishes_empty_witness :
  fst (reads (tick lateSchedule (New [P2; P1]))) !! "BTC/USD" = Some 30000
  /\ reads (tick silentSchedule (tick lateSchedule (New [P2; P1])))
     = (∅, 200).
Proof.
  split; [by vm_compute|].
  apply tick_without_stores_publishes_empty; [reflexivity..|].
  repeat constructor. intros n q. discriminate.
Defined.

(** X4. A map handed out by GetPrices is never changed by later ticks:
    however many ticks run afterwards, it still holds the entries that
    were published when it was taken. *)
Theorem GetPrices_copy_survives_ticks envs o :
  deref (ticks envs (fst (GetPrices o))) (snd (GetPrices o))
  = deref o (prices o).
Proof.
  unfold GetPrices, makeMap. cbn [fst snd]. unfold deref at 1.
  rewrite ticks_maps.
  - cbn. by rewrite lookup_insert_eq, mapsCopy_empty.
  - cbn. rewrite dom_insert_L. set_solver.
Qed.

(** X5. SetPrices keeps the caller's map itself, not a copy: what the
    caller later writes through its own reference is what GetPrices
    returns. *)
Theorem SetPrices_shares_map l content o :
  prices (SetPrices (Some l) o) = Some l
  /\ reads (mutate (Some l) content (SetPrices (Some l) o))
     = (content, lastPriceSync o)
  /\ GetLastSyncTime (SetPrices (Some l) o) = GetLastSyncTime o.
Proof.
  split; [done|]. split; [|done].
  rewrite reads_view. unfold view. cbn. by rewrite lookup_insert_eq.
Qed.

(** X6. GetPrices never returns a nil map: when the published map is nil
    it returns a new empty map. *)
Theorem GetPrices_never_nil o :
  is_Some (snd (GetPrices o))
  /\ (prices o = None ->
      deref (fst (GetPrices o)) (snd (GetPrices o)) = ∅)
  /\ deref (fst (GetPrices (SetPrices None o)))
           (snd (GetPrices (SetPrices None o))) = ∅.
Proof.
  split; [by eexists|].
  assert (forall o', prices o' = None ->
            deref (fst (GetPrices o')) (snd (GetPrices o')) = ∅) as H.
  { intros o' Hnil. unfold GetPrices, makeMap. cbn.
    rewrite lookup_insert_eq, mapsCopy_empty, Hnil. done. }
  split; [apply H|]. by apply H.
Qed.

(** X7. Start returns at the first exit event and nothing after it has
    any effect: the final state is the one left by the ticks that fired
    before, with the status cleared, and with the closer closed when the
    context was done. *)
Theorem Start_stops_at_exit envs rest err o :
  fst (Start ((TickerC <$> envs) ++ CloserDone :: rest) o)
  = withStatus false (ticks envs o)
  /\ fst (Start ((TickerC <$> envs) ++ CtxDone err :: rest) o)
     = withStatus false (Stop (ticks envs o))
  /\ closed (fst (Start ((TickerC <$> envs) ++ CtxDone err :: rest) o)) = true
  /\ reads (fst (Start ((TickerC <$> envs) ++ CloserDone :: rest) o))
     = reads (ticks envs o)
  /\ reads (fst (Start ((TickerC <$> envs) ++ CtxDone err :: rest) o))
     = reads (ticks envs o).
Proof.
  unfold Start. rewrite !loop_ticks, ticks_withStatus. cbn.
  split_and!; try done; rewrite !reads_view; by destruct (ticks envs o).
Qed.

(** X8. From a new oracle, whatever the loop does, the published map is
    an existing map object, so GetPrices returns the published entries in
    a map other than the published one. *)
Theorem reachable_GetPrices_copies ps evs :
  allocated (fst (Start evs (New ps)))
  /\ snd (GetPrices (fst (Start evs (New ps))))
     <> prices (fst (Start evs (New ps)))
  /\ deref (fst (GetPrices (fst (Start evs (New ps)))))
           (prices (fst (Start evs (New ps))))
     = deref (fst (Start evs (New ps))) (prices (fst (Start evs (New ps)))).
Proof.
  assert (allocated (fst (Start evs (New ps)))) as Halloc.
  { unfold Start.
    pose proof (loop_allocated evs (withStatus true (New ps))) as H.
    destruct (loop evs (withStatus true (New ps))) as [o' [r|]]; cbn in *.
    - assert (allocated o') as Ho' by (apply H; apply allocated_New).
      by destruct o'.
    - apply H. apply allocated_New. }
  set (o := fst (Start evs (New ps))) in *.
  split; [done|].
  assert (fresh (dom (maps o)) ∉ dom (maps o)) as Hfresh by apply is_fresh.
  split.
  - unfold GetPrices, makeMap. cbn. intros Heq. symmetry in Heq.
    by apply Halloc in Heq.
  - unfold GetPrices, makeMap, deref. cbn.
    destruct (prices o) as [l|] eqn:Hl; [|done].
    rewrite lookup_insert_ne; [done|]. intros Heq. apply Halloc in Hl.
    by rewrite <-Heq in Hl.
Qed.

(** X9. The group wait reports the error of the first runner, in order
    of completion, whose body panicked. *)
Theorem Wait_first_panic pre p sel post r
    (Hpre : Forall (fun ev => runnerError ev = None) pre)
    (Hp : Name p = Panic r) :
  Wait (pre ++ RunnerReturns p sel :: post)
  = Some ("panic in fetchPricesFn " +:+ r).
Proof.
  unfold Wait. rewrite omap_app.
  assert (omap runnerError pre = []) as ->.
  { induction Hpre as [|ev evs Hev _ IH]; [done|]. cbn. by rewrite Hev. }
  cbn. unfold fetchPricesFn, runnerBody. by rewrite Hp.
Qed.

Lemma Wait_first_panic_witness :
  Wait (events panicSchedule)
  = Some "panic in fetchPricesFn nil pointer dereference".
Proof.
  apply (Wait_first_panic
           [FetchStores "P1" btc; RunnerReturns P1 CaseDone]
           nilProvider CaseTimeout [] "nil pointer dereference");
    [repeat constructor|reflexivity].
Defined.

(** X10. The sync time after a run of ticks is the initial one or the
    clock reading of one of the ticks; when the clock readings do not
    decrease, neither does the sync time from one tick to the next. *)
Theorem lastPriceSync_monotone envs o k
    (Hclock : StronglySorted Z.le (lastPriceSync o :: (now <$> envs))) :
  lastPriceSync (ticks envs o) ∈ lastPriceSync o :: (now <$> envs)
  /\ GetLastSyncTime (ticks (take k envs) o)
     <= GetLastSyncTime (ticks (take (S k) envs) o).
Proof.
  split; [apply ticks_lastPriceSync|].
  destruct (envs !! k) as [env|] eqn:Hk.
  2:{ apply lookup_ge_None in Hk. rewrite !take_ge by lia. done. }
  rewrite (take_S_r _ _ _ Hk). unfold ticks at 2. rewrite foldl_app.
  cbn [foldl].
  fold (ticks (take k envs) o). set (o1 := ticks (take k envs) o).
  unfold GetLastSyncTime.
  destruct (publishes env o1) as [m|] eqn:Hpub.
  - destruct (tick_published env o1 m Hpub) as (_ & _ & -> & _).
    pose proof (ticks_lastPriceSync (take k envs) o) as Hin. fold o1 in Hin.
    rewrite <-(take_drop_middle _ _ _ Hk) in Hclock.
    rewrite fmap_app, fmap_cons, app_comm_cons in Hclock.
    apply StronglySorted_app in Hclock as (Hle & _ & _).
    apply Hle; [done|left].
  - rewrite (tick_unpublished env o1 Hpub). by destruct o1.
Qed.

Lemma lastPriceSync_monotone_witness :
  GetLastSyncTime (ticks (take 1 [lateSchedule; silentSchedule])
                     (New [P2; P1]))
  <= GetLastSyncTime (ticks (take 2 [lateSchedule; silentSchedule])
                        (New [P2; P1])).
Proof.
  apply (lastPriceSync_monotone [lateSchedule; silentSchedule]
           (New [P2; P1]) 1).
  repeat constructor; cbn; lia.
Defined.

End OracleExtras.

(** ** Further properties of the median reduction *)

Section MedianMoreFacts.
Import Sort Median.

Lemma filter_none (P : TickerPrice -> Prop) `{!forall t, Decision (P t)} l :
  Forall (fun t => ~ P t) l -> filter P l = [].
Proof.
  induction 1 as [|t l Ht _ IH]; [done|].
  by rewrite filter_cons, decide_False, IH.
Qed.

Lemma filter_all (P : TickerPrice -> Prop) `{!forall t, Decision (P t)} l :
  Forall P l -> filter P l = l.
Proof.
  induction 1 as [|t l Ht _ IH]; [done|].
  by rewrite filter_cons, decide_True, IH.
Qed.

Lemma ascending_take l k t :
  ascending l -> l !! k = Some t ->
  Forall (fun q => Price q <= Price t) (take (S k) l).
Proof.
  intros Hs Hk. apply Forall_lookup. intros i q Hq.
  apply lookup_take_Some in Hq as [Hq Hi].
  eapply ascending_lookup; eauto. lia.
Qed.

Lemma ascending_drop l k t :
  ascending l -> l !! k = Some t ->
  Forall (fun q => Price t <= Price q) (drop k l).
Proof.
  intros Hs Hk. apply Forall_lookup. intros i q Hq.
  rewrite lookup_drop in Hq.
  eapply ascending_lookup; eauto. lia.
Qed.

Lemma count_split (P : TickerPrice -> Prop) `{!forall t, Decision (P t)} l k :
  length (filter P l)
  = (length (filter P (take k l)) + length (filter P (drop k l)))%nat.
Proof. by rewrite <-(take_drop k l) at 1; rewrite filter_app, length_app. Qed.

(** The element at index [k] of an ascending list bounds the number of
    elements up to a threshold from either side. *)
Lemma ascending_count_ge l k t y :
  ascending l -> l !! k = Some t -> Price t <= y ->
  (S k <= length (filter (fun q => (Price q <= y)%Z) l))%nat.
Proof.
  intros Hs Hk Hy. rewrite (count_split _ l (S k)).
  rewrite filter_all.
  - rewrite length_take_le; [lia|]. apply lookup_lt_Some in Hk. lia.
  - eapply Forall_impl; [by eapply ascending_take|]. cbn. intros; lia.
Qed.

Lemma ascending_count_le l k t y :
  ascending l -> l !! k = Some t -> y < Price t ->
  (length (filter (fun q => (Price q <= y)%Z) l) <= k)%nat.
Proof.
  intros Hs Hk Hy. rewrite (count_split _ l k).
  rewrite (filter_none _ (drop k l)).
  - pose proof (length_filter (fun q => (Price q <= y)%Z) (take k l)).
    rewrite length_take in *. cbn. lia.
  - eapply Forall_impl; [by eapply ascending_drop|]. cbn. intros; lia.
Qed.

Lemma count_le_pointwise y l1 l2 :
  Forall2 (fun a b => Price a <= Price b) l1 l2 ->
  (length (filter (fun q => (Price q <= y)%Z) l2)
   <= length (filter (fun q => (Price q <= y)%Z) l1))%nat.
Proof.
  induction 1 as [|a b l1 l2 Hab _ IH]; [done|].
  rewrite !filter_cons.
  destruct (decide (Price b <= y)), (decide (Price a <= y)); cbn; lia.
Qed.

Lemma count_perm (P : TickerPrice -> Prop) `{!forall t, Decision (P t)} l :
  length (filter P (SliceStable l)) = length (filter P l).
Proof. by rewrite SliceStable_perm. Qed.

Lemma medianOf_Some l x :
  medianOf l = Some x ->
  exists t, SliceStable l !! (length l / 2)%nat = Some t /\ Price t = x.
Proof.
  unfold medianOf. rewrite SliceStable_length, fmap_Some.
  intros (t & Ht & ->). by exists t.
Qed.

Lemma medianOf_mono l1 l2 x y :
  Forall2 (fun a b => Price a <= Price b) l1 l2 ->
  medianOf l1 = Some x -> medianOf l2 = Some y -> x <= y.
Proof.
  intros Hall H1 H2.
  apply medianOf_Some in H1 as (t1 & Ht1 & <-).
  apply medianOf_Some in H2 as (t2 & Ht2 & <-).
  rewrite <-(Forall2_length _ _ _ Hall) in Ht2.
  destruct (Z.le_gt_cases (Price t1) (Price t2)) as [|Hgt]; [done|].
  pose proof (ascending_count_ge _ _ _ (Price t2)
                (SliceStable_ascending l2) Ht2 (Z.le_refl _)) as Hge.
  pose proof (ascending_count_le _ _ _ (Price t2)
                (SliceStable_ascending l1) Ht1 Hgt) as Hle.
  rewrite count_perm in Hge, Hle.
  pose proof (count_le_pointwise (Price t2) l1 l2 Hall). lia.
Qed.

Lemma medianOf_majority l x :
  (length l < 2 * length (filter (fun q => (Price q = x)%Z) l))%nat ->
  medianOf l = Some x.
Proof.
  intros Hmaj.
  assert (l <> []) as Hne by (intros ->; cbn in Hmaj; lia).
  destruct (medianOf_is_Some l Hne) as [y Hy]. rewrite Hy. f_equal.
  apply medianOf_Some in Hy as (t & Ht & <-).
  rewrite <-(count_perm (fun q => (Price q = x)%Z)) in Hmaj.
  pose proof (SliceStable_ascending l) as Hs.
  pose proof (SliceStable_length l) as Hlen.
  pose proof (Nat.div_mod_eq (length l) 2) as Hdiv.
  pose proof (Nat.mod_upper_bound (length l) 2 ltac:(lia)) as Hmod.
  set (S := SliceStable l) in *. set (k := (length l / 2)%nat) in *.
  destruct (Z.lt_trichotomy (Price t) x) as [Hlt|[Heq|Hgt]]; [|done|].
  - exfalso. rewrite (count_split _ S (Datatypes.S k)) in Hmaj.
    rewrite (filter_none _ (take (Datatypes.S k) S)) in Hmaj.
    + pose proof (length_filter (fun q => (Price q = x)%Z)
                    (drop (Datatypes.S k) S)) as Hf.
      rewrite length_drop in Hf.
      change (length (@nil TickerPrice)) with 0%nat in Hmaj. lia.
    + eapply Forall_impl; [by eapply ascending_take|]. cbn. intros; lia.
  - exfalso. rewrite (count_split _ S k) in Hmaj.
    rewrite (filter_none _ (drop k S)) in Hmaj.
    + pose proof (length_filter (fun q => (Price q = x)%Z) (take k S)) as Hf.
      rewrite length_take in Hf.
      change (length (@nil TickerPrice)) with 0%nat in Hmaj. lia.
    + eapply Forall_impl; [by eapply ascending_drop|]. cbn. intros; lia.
Qed.

Lemma pricesFor_insert a p pp (providers : AggregatedProviderPrices) :
  providers !! p = None ->
  pricesFor a (<[p := pp]> providers)
  ≡ₚ option_list (pp !! a) ++ pricesFor a providers.
Proof.
  intros Hp. unfold pricesFor. rewrite (map_to_list_insert _ _ _ Hp). cbn.
  by destruct (pp !! a).
Qed.

Lemma pricesFor_empty a : pricesFor a ∅ = [].
Proof. unfold pricesFor. by rewrite map_to_list_empty. Qed.

(** The price that ComputeMedian gives to an asset. *)
Lemma ComputeMedian_lookup providers a :
  ComputeMedian providers ≫= (fun m => m !! a)
  = medianOf (pricesFor a providers).
Proof.
  destruct (ComputeMedian_result providers) as (m & -> & Hlook). apply Hlook.
Qed.

End MedianMoreFacts.

Section MedianExtras.
Import Sort Median.

(** X11. When more than half of the prices reported for an asset are the
    same price, ComputeMedian outputs that price for the asset, whatever
    the other providers report. *)
Theorem ComputeMedian_majority providers a x
    (Hmaj : (length (pricesFor a providers)
             < 2 * length (filter (fun q => (Price q = x)%Z)
                                  (pricesFor a providers)))%nat) :
  ComputeMedian providers ≫= (fun m => m !! a) = Some x.
Proof. rewrite ComputeMedian_lookup. by apply medianOf_majority. Qed.

Lemma ComputeMedian_majority_witness :
  ComputeMedian outlierScenario ≫= (fun m => m !! "ETH/USD") = Some 2000.
Proof.
  apply ComputeMedian_majority. vm_compute. lia.
Defined.

(** X12. With a single provider the output is that provider's prices:
    one entry per quoted asset, at the quoted price. *)
Theorem ComputeMedian_single_provider p (pp : ProviderPrices) :
  ComputeMedian {[ p := pp ]} = Some (Price <$> pp).
Proof.
  destruct (ComputeMedian_result {[ p := pp ]}) as (m & -> & Hlook).
  f_equal. apply map_eq. intros a. rewrite Hlook, lookup_fmap.
  unfold pricesFor. rewrite map_to_list_singleton. cbn.
  by destruct (pp !! a).
Qed.

(** X13. A provider that does not quote an asset has no influence on the
    price of that asset; a provider with an empty map changes nothing. *)
Theorem ComputeMedian_ignores_silent_provider
    (providers : AggregatedProviderPrices) p pp a
    (Hnew : providers !! p = None) (Hsilent : pp !! a = None) :
  ComputeMedian (<[p := pp]> providers) ≫= (fun m => m !! a)
  = ComputeMedian providers ≫= (fun m => m !! a)
  /\ ComputeMedian (<[p := ∅]> providers) = ComputeMedian providers.
Proof.
  split.
  - rewrite !ComputeMedian_lookup. apply medianOf_perm.
    by rewrite (pricesFor_insert a p pp providers Hnew), Hsilent.
  - destruct (ComputeMedian_result (<[p := ∅]> providers)) as (m1 & -> & H1).
    destruct (ComputeMedian_result providers) as (m2 & -> & H2).
    f_equal. apply map_eq. intros b. rewrite H1, H2. apply medianOf_perm.
    by rewrite (pricesFor_insert b p ∅ providers Hnew), lookup_empty.
Qed.

Lemma ComputeMedian_ignores_silent_provider_witness :
  ComputeMedian (<["P5" := btc]> scenarioC) ≫= (fun m => m !! "ETH/USD")
  = ComputeMedian scenarioC ≫= (fun m => m !! "ETH/USD").
Proof.
  apply (ComputeMedian_ignores_silent_provider scenarioC "P5" btc "ETH/USD");
    reflexivity.
Defined.

(** X14. The output is monotone in each quote: when one provider raises
    its price for an asset and nothing else changes, the price that
    ComputeMedian gives to the asset does not go down. *)
Theorem ComputeMedian_monotone
    (providers : AggregatedProviderPrices) p pp a t t'
    (Hp : providers !! p = Some pp) (Ht : pp !! a = Some t)
    (Hle : Price t <= Price t') :
  exists x y,
    ComputeMedian providers ≫= (fun m => m !! a) = Some x
    /\ ComputeMedian (<[p := <[a := t']> pp]> providers)
         ≫= (fun m => m !! a) = Some y
    /\ x <= y.
Proof.
  rewrite !ComputeMedian_lookup.
  assert (delete p providers !! p = None) as Hdel by apply lookup_delete_eq.
  assert (pricesFor a providers ≡ₚ t :: pricesFor a (delete p providers))
    as Hold.
  { rewrite <-(insert_delete_id providers p pp Hp) at 1.
    by rewrite (pricesFor_insert a p pp _ Hdel), Ht. }
  assert (pricesFor a (<[p := <[a := t']> pp]> providers)
          ≡ₚ t' :: pricesFor a (delete p providers)) as Hnew.
  { rewrite <-(insert_delete_eq providers).
    by rewrite (pricesFor_insert a p _ _ Hdel), lookup_insert_eq. }
  rewrite (medianOf_perm _ _ Hold), (medianOf_perm _ _ Hnew).
  destruct (medianOf_is_Some (t :: pricesFor a (delete p providers)))
    as [x Hx]; [done|].
  destruct (medianOf_is_Some (t' :: pricesFor a (delete p providers)))
    as [y Hy]; [done|].
  exists x, y. split; [done|]. split; [done|].
  eapply medianOf_mono; [|exact Hx|exact Hy].
  constructor; [done|]. apply Forall_Forall2_diag, Forall_forall.
  intros; lia.
Qed.

Lemma ComputeMedian_monotone_witness :
  exists x y,
    ComputeMedian scenarioC ≫= (fun m => m !! "ETH/USD") = Some x
    /\ ComputeMedian (<["P1" := <["ETH/USD" := tp 2500]>
                                  {[ "ETH/USD" := tp 1800 ]}]> scenarioC)
         ≫= (fun m => m !! "ETH/USD") = Some y
    /\ x <= y.
Proof.
  apply (ComputeMedian_monotone scenarioC "P1" {[ "ETH/USD" := tp 1800 ]}
           "ETH/USD" (tp 1800) (tp 2500)); [reflexivity|reflexivity|].
  cbn. lia.
Defined.

(** X21. With two providers quoting an asset, the output is the higher
    of the two prices, not their mean. *)
Theorem ComputeMedian_two_providers p1 p2 (pp1 pp2 : ProviderPrices) a t1 t2
    (Hne : p1 <> p2) (H1 : pp1 !! a = Some t1) (H2 : pp2 !! a = Some t2) :
  ComputeMedian (<[p1 := pp1]> {[ p2 := pp2 ]}) ≫= (fun m => m !! a)
  = Some (Z.max (Price t1) (Price t2)).
Proof.
  rewrite ComputeMedian_lookup.
  assert (pricesFor a (<[p1 := pp1]> {[ p2 := pp2 ]}) ≡ₚ [t1; t2]) as Hperm.
  { rewrite pricesFor_insert by (by rewrite lookup_singleton_ne).
    rewrite H1. unfold pricesFor. rewrite map_to_list_singleton. cbn.
    by rewrite H2. }
  rewrite (medianOf_perm _ _ Hperm).
  unfold medianOf, SliceStable, insertionSortRev. cbn. unfold less.
  destruct (Z.ltb_spec (Price t2) (Price t1)); cbn; f_equal; lia.
Qed.

Lemma ComputeMedian_two_providers_witness :
  ComputeMedian (<["P1" := btc]> {[ "P2" := {[ "BTC/USD" := tp 31000 ]} ]})
    ≫= (fun m => m !! "BTC/USD")
  = Some (Z.max 30000 31000).
Proof.
  apply (ComputeMedian_two_providers "P1" "P2" btc
           {[ "BTC/USD" := tp 31000 ]} "BTC/USD" (tp 30000) (tp 31000));
    [discriminate|reflexivity|reflexivity].
Defined.

End MedianExtras.

(** ** The default provider factory *)

Section FactoryFacts.
Import Factory.
Context {OracleConfig APIHandler WSHandler Provider : Type}.
Variable ValidateBasic : OracleConfig -> option string.
Variable Providers : OracleConfig -> list ProviderConfig.
Variable newAPIProvider :
  OracleConfig -> ProviderConfig -> APIHandler -> result Provider.
Variable newWSProvider :
  OracleConfig -> ProviderConfig -> WSHandler -> result Provider.

Abbreviation provide := (Factory.provide newAPIProvider newWSProvider).
Abbreviation provideAll := (Factory.provideAll newAPIProvider newWSProvider).
Abbreviation Factory :=
  (Factory.Factory ValidateBasic Providers newAPIProvider newWSProvider).

Lemma provideAll_Ok f cfg ps provs :
  provideAll f cfg ps = Ok provs ->
  Forall2 (fun p prov => provide f cfg p = Ok prov) ps provs.
Proof.
  revert provs. induction ps as [|p ps IH]; intros provs; cbn.
  - intros [= <-]. constructor.
  - destruct (provide f cfg p) as [prov|e] eqn:Hp; [|done].
    destruct (provideAll f cfg ps) as [rest|e]; [|done].
    intros [= <-]. constructor; [done|]. by apply IH.
Qed.

Lemma provideAll_Err f cfg pre p post e :
  Forall (fun q => exists prov, provide f cfg q = Ok prov) pre ->
  provide f cfg p = Err e ->
  provideAll f cfg (pre ++ p :: post) = Err e.
Proof.
  intros Hpre Hp. induction Hpre as [|q pre [prov Hq] _ IH]; cbn.
  - by rewrite Hp.
  - by rewrite Hq, IH.
Qed.

Lemma provideAll_unknown f cfg ps p :
  p ∈ ps -> APIEnabled p = false -> WebSocketEnabled p = false ->
  exists e, provideAll f cfg ps = Err e.
Proof.
  intros Hin Hapi Hws. induction ps as [|q ps IH]; [by apply not_elem_of_nil in Hin|].
  cbn. destruct (provide f cfg q) as [prov|e] eqn:Hq; [|by exists e].
  apply elem_of_cons in Hin as [->|Hin].
  - unfold Factory.provide in Hq. by rewrite Hapi, Hws in Hq.
  - destruct (IH Hin) as [e ->]. by exists e.
Qed.

(** X15. When the factory succeeds, the configuration was valid and the
    result holds exactly one provider per provider configuration, in the
    order of the configuration, each built through the API handler when
    the API is enabled and through the websocket handler otherwise. *)
Theorem Factory_builds_each_in_order f cfg provs
    (Hok : Factory f cfg = Ok provs) :
  ValidateBasic cfg = None
  /\ length provs = length (Providers cfg)
  /\ forall i p, Providers cfg !! i = Some p ->
       exists prov,
         provs !! i = Some prov
         /\ (APIEnabled p = true \/ WebSocketEnabled p = true)
         /\ if APIEnabled p
            then exists h, apiFactory f p = Ok h
                           /\ newAPIProvider cfg p h = Ok prov
            else exists h, wsFactory f p = Ok h
                           /\ newWSProvider cfg p h = Ok prov.
Proof.
  unfold Factory.Factory in Hok.
  destruct (ValidateBasic cfg) as [e|]; [done|].
  apply provideAll_Ok in Hok. split; [done|].
  split; [symmetry; by eapply Forall2_length|].
  intros i p Hp.
  destruct (Forall2_lookup_l _ _ _ _ _ Hok Hp) as (prov & Hprov & Hbuilt).
  exists prov. split; [done|]. unfold Factory.provide in Hbuilt.
  destruct (APIEnabled p).
  - split; [by left|]. destruct (apiFactory f p) as [h|]; [|done]. by exists h.
  - destruct (WebSocketEnabled p); [|done]. split; [by right|].
    destruct (wsFactory f p) as [h|]; [|done]. by exists h.
Qed.

(** X16. The factory fails fast: a validation error is returned before
    anything is built, and otherwise the error returned is that of the
    first provider configuration, in order, that cannot be provided. *)
Theorem Factory_fails_fast f cfg pre p post e
    (Hsplit : Providers cfg = pre ++ p :: post)
    (Hpre : Forall (fun q => exists prov, provide f cfg q = Ok prov) pre)
    (Hp : provide f cfg p = Err e) :
  (ValidateBasic cfg = None -> Factory f cfg = Err e)
  /\ (forall e', ValidateBasic cfg = Some e' -> Factory f cfg = Err e').
Proof.
  unfold Factory.Factory. split.
  - intros ->. rewrite Hsplit. by apply provideAll_Err.
  - by intros e' ->.
Qed.

(** X17. A provider configuration with neither the API nor the websocket
    enabled makes the whole factory fail: no provider list is returned,
    whatever the other configurations are. *)
Theorem Factory_rejects_unknown_type f cfg p
    (Hin : p ∈ Providers cfg)
    (Hapi : APIEnabled p = false) (Hws : WebSocketEnabled p = false) :
  (exists e, Factory f cfg = Err e)
  /\ provide f cfg p = Err ("unknown provider type: " +:+ Name p).
Proof.
  split.
  - unfold Factory.Factory. destruct (ValidateBasic cfg) as [e|]; [by exists e|].
    by eapply provideAll_unknown.
  - unfold Factory.provide. by rewrite Hapi, Hws.
Qed.

(** X18. NewDefaultProviderFactory succeeds exactly when none of its three
    arguments is nil, and then keeps the two handler factories it was
    given; otherwise its error names the first nil argument, in the order
    logger, apiFactory, wsFactory. *)
Theorem NewDefaultProviderFactory_checks_nil {Logger : Type}
    (logger : option Logger)
    (api : option (ProviderConfig -> result APIHandler))
    (ws : option (ProviderConfig -> result WSHandler)) :
  ((exists f, NewDefaultProviderFactory logger api ws = Ok f)
   <-> is_Some logger /\ is_Some api /\ is_Some ws)
  /\ (forall f, NewDefaultProviderFactory logger api ws = Ok f ->
        api = Some (apiFactory f) /\ ws = Some (wsFactory f))
  /\ (logger = None ->
      NewDefaultProviderFactory logger api ws = Err "logger cannot be nil")
  /\ (is_Some logger -> api = None ->
      NewDefaultProviderFactory logger api ws = Err "apiFactory cannot be nil")
  /\ (is_Some logger -> is_Some api -> ws = None ->
      NewDefaultProviderFactory logger api ws = Err "wsFactory cannot be nil").
Proof.
  destruct logger as [l|], api as [a|], ws as [w|]; cbn;
    split_and!; try done; try (by intros [? ?]); try (by intros ? [= <-]);
    try (split; [by intros [? ?]|by intros (? & ? & [? ?])]);
    try (split; [by intros [? ?]|by intros (? & [? ?] & ?)]);
    try (split; [by intros [? ?]|by intros ([? ?] & ? & ?)]).
  split; [by intros _; split_and!; eexists|]. intros _. by eexists.
Qed.

End FactoryFacts.

Lemma Factory_builds_each_in_order_witness :
  demoFactoryOf demoConfig
  = Factory.Ok ["api provider coingecko"; "ws provider kraken";
                "api provider both"]
  /\ length ["api provider coingecko"; "ws provider kraken";
             "api provider both"] = length demoConfig.
Proof.
  split; [reflexivity|].
  exact (proj1 (proj2 (Factory_builds_each_in_order
    (fun _ => None) (fun cfg => cfg)
    (fun _ p h => Factory.Ok ("api provider " +:+ Factory.Name p))
    (fun _ p h => Factory.Ok ("ws provider " +:+ Factory.Name p))
    demoFactory demoConfig _ eq_refl))).
Defined.

Lemma Factory_fails_fast_witness :
  demoFactoryOf (demoConfig ++ [Factory.mkProviderConfig "none" false false]
                            ++ demoConfig)
  = Factory.Err "unknown provider type: none".
Proof.
  refine (proj1 (Factory_fails_fast
    (fun _ => None) (fun cfg => cfg)
    (fun _ p h => Factory.Ok ("api provider " +:+ Factory.Name p))
    (fun _ p h => Factory.Ok ("ws provider " +:+ Factory.Name p))
    demoFactory _ demoConfig (Factory.mkProviderConfig "none" false false)
    demoConfig "unknown provider type: none" eq_refl _ eq_refl) eq_refl).
  repeat constructor; by eexists.
Defined.

Lemma Factory_rejects_unknown_type_witness :
  exists e,
    demoFactoryOf (Factory.mkProviderConfig "none" false false :: demoConfig)
    = Factory.Err e.
Proof.
  refine (proj1 (Factory_rejects_unknown_type
    (fun _ => None) (fun cfg => cfg)
    (fun _ p h => Factory.Ok ("api provider " +:+ Factory.Name p))
    (fun _ p h => Factory.Ok ("ws provider " +:+ Factory.Name p))
    demoFactory _ (Factory.mkProviderConfig "none" false false)
    _ eq_refl eq_refl)).
  left.
Defined.

(** ** The CoinGecko provider *)

Section CoinGeckoFacts.
Import CoinGecko.
Context {Float QuotePrice : Type}.
Variable ToLower : string -> string.
Variable Decimals : CurrencyPair -> Z.
Variable NewQuotePrice : Float -> Z -> Z -> option QuotePrice.

Abbreviation quoted := (CoinGecko.quoted ToLower).
Abbreviation addPrice := (CoinGecko.addPrice ToLower Decimals NewQuotePrice).
Abbreviation getPrices := (CoinGecko.getPrices ToLower Decimals NewQuotePrice).

(** One iteration either leaves the map alone or sets the pair's entry. *)
Lemma addPrice_lookup respMap prices pair now other :
  addPrice respMap prices (pair, now) !! other
  = if decide (pair = other)
    then match quoted respMap pair
                 ≫= (fun v => NewQuotePrice v (Decimals pair) now) with
         | Some quotePrice => Some quotePrice
         | None => prices !! other
         end
    else prices !! other.
Proof.
  unfold CoinGecko.addPrice, CoinGecko.quoted. cbn.
  destruct (respMap !! ToLower (Base pair)) as [byQuote|]; cbn;
    [|by destruct (decide _)].
  destruct (byQuote !! ToLower (Quote pair)) as [v|]; cbn;
    [|by destruct (decide _)].
  destruct (NewQuotePrice v (Decimals pair) now) as [q|];
    [|by destruct (decide _)].
  destruct (decide (pair = other)) as [->|Hne].
  - by rewrite lookup_insert_eq.
  - by rewrite lookup_insert_ne.
Qed.

Lemma addPrice_fold_other respMap l prices other :
  other ∉ l.*1 ->
  foldl (addPrice respMap) prices l !! other = prices !! other.
Proof.
  revert prices. induction l as [|[pair now] l IH]; intros prices Hnot; [done|].
  cbn [foldl]. cbn in Hnot. apply not_elem_of_cons in Hnot as [Hne Hnot].
  rewrite IH by done. rewrite addPrice_lookup. by rewrite decide_False.
Qed.

Lemma addPrice_fold_dom respMap l prices other :
  other ∈ dom (foldl (addPrice respMap) prices l) ->
  other ∈ dom prices \/ (other ∈ l.*1 /\ is_Some (quoted respMap other)).
Proof.
  revert prices. induction l as [|[pair now] l IH]; intros prices; [by left|].
  cbn [foldl]. intros Hin. destruct (IH _ Hin) as [Hacc|[Hl Hq]].
  - apply elem_of_dom in Hacc. rewrite addPrice_lookup in Hacc.
    destruct (decide (pair = other)) as [->|Hne].
    + destruct (quoted respMap other) as [v|] eqn:Hv; cbn in Hacc.
      * right. split; [left|by eexists].
      * left. by apply elem_of_dom.
    + left. by apply elem_of_dom.
  - right. split; [by right|done].
Qed.

Lemma addPrice_fold_lookup respMap l prices pair now :
  NoDup l.*1 -> (pair, now) ∈ l ->
  foldl (addPrice respMap) prices l !! pair
  = match quoted respMap pair
          ≫= (fun v => NewQuotePrice v (Decimals pair) now) with
    | Some quotePrice => Some quotePrice
    | None => prices !! pair
    end.
Proof.
  revert prices. induction l as [|[pair' now'] l IH]; intros prices Hnd Hin.
  { by apply not_elem_of_nil in Hin. }
  cbn in Hnd. apply NoDup_cons in Hnd as [Hfresh Hnd]. cbn [foldl].
  apply elem_of_cons in Hin as [[= <- <-]|Hin].
  - rewrite addPrice_fold_other by done. rewrite addPrice_lookup.
    by rewrite decide_True.
  - rewrite IH by done. rewrite addPrice_lookup, decide_False; [done|].
    intros ->. apply Hfresh. apply list_elem_of_fmap. by exists (pair, now).
Qed.

Lemma imap_clock_fst (clock : nat -> Z) (l : list CurrencyPair) :
  (imap (fun i pair => (pair, clock i)) l).*1 = l.
Proof.
  revert clock. induction l as [|pair l IH]; intros clock; [done|].
  cbn. f_equal. apply (IH (clock ∘ S)).
Qed.

(** X19. The endpoint is the host followed by the price path with the
    bases and quotes put in verbatim and the precision fixed at 18; the
    paid host is used, and the key sent in the header, exactly when an API
    key is set, and the key is never part of the URL. *)
Theorem getPriceEndpoint_form (p : Provider) :
  url (request p)
  = (if decide (apiKey p <> "") then apiURL else baseURL)
    +:+ "/simple/price?ids=" +:+ bases p
    +:+ "&vs_currencies=" +:+ quotes p +:+ "&precision=18"
  /\ header (request p)
     = (if decide (apiKey p <> "")
        then Some ("x-cg-pro-api-key", apiKey p) else None)
  /\ forall key, key <> "" -> apiKey p <> "" ->
       url (request (mkProvider key (bases p) (quotes p) (pairs p)))
       = url (request p).
Proof.
  split_and!.
  - cbn. unfold getPriceEndpoint. by destruct (decide (apiKey p <> "")).
  - done.
  - intros key Hkey Hp. cbn. unfold getPriceEndpoint.
    by rewrite !decide_True.
Qed.

(** X20. getPrices returns the request's error and no prices when the
    request fails.  Otherwise every key of the result is one of the
    provider's configured pairs whose lower-cased base and quote are both
    in the response, and, when the configured pairs are distinct, each
    configured pair has the quote converted from its response value at its
    own decimals, or no entry when the value is missing or the conversion
    fails. *)
Theorem getPrices_filters (p : Provider)
    (send : Request -> Factory.result (gmap string (gmap string Float)))
    (clock : nat -> Z) :
  match send (request p) with
  | Factory.Err err => getPrices p send clock = Factory.Err err
  | Factory.Ok respMap =>
      exists prices,
        getPrices p send clock = Factory.Ok prices
        /\ (forall pair, pair ∈ dom prices ->
              pair ∈ pairs p /\ is_Some (quoted respMap pair))
        /\ (NoDup (pairs p) ->
            forall i pair, pairs p !! i = Some pair ->
              prices !! pair
              = quoted respMap pair
                  ≫= (fun v => NewQuotePrice v (Decimals pair) (clock i)))
  end.
Proof.
  unfold CoinGecko.getPrices.
  destruct (send (request p)) as [respMap|err]; [|done].
  eexists. split; [done|]. split.
  - intros pair Hin. apply addPrice_fold_dom in Hin as [Hin|[Hin Hq]].
    + by rewrite dom_empty_L in Hin.
    + by rewrite imap_clock_fst in Hin.
  - intros Hnd i pair Hi.
    rewrite (addPrice_fold_lookup respMap _ ∅ pair (clock i)).
    + rewrite lookup_empty. by destruct (_ ≫= _).
    + by rewrite imap_clock_fst.
    + apply list_elem_of_lookup. exists i.
      by rewrite list_lookup_imap, Hi.
Qed.

End CoinGeckoFacts.
